(** * LaTeX-to-speech text transformer: a shallow embedding of
      [server/utils/tex_to_text.py] and the properties of its pipeline.

    Python [str] values are modelled as lists of Unicode code points, so that
    [str.strip], [str.split], [str.replace] and the [re] patterns work on
    characters exactly as they do in the interpreter (the narration phrases
    are Cyrillic).  Python operations that can raise ([max] of an empty
    sequence, indexing, a method call on [None]) return [option], and the
    callbacks and stages built from them thread that through. *)

From Stdlib Require Import String Ascii.
From Stdlib Require Import List NArith ZArith Arith Bool Lia.
Import ListNotations.

Set Implicit Arguments.

(* ================================================================== *)
(** ** Characters and strings *)

Module Py.

Definition char := N.
Definition str := list char.

(** Source literals are written as UTF-8 text and decoded to code points. *)
Fixpoint utf8_go (pending : nat) (cp : N) (bs : list N) : str :=
  match bs with
  | [] => []
  | b :: bs' =>
      if (b <? 128)%N then b :: utf8_go 0 0%N bs'
      else if (b <? 192)%N then
        let cp' := (cp * 64 + (b - 128))%N in
        match pending with
        | 0 => utf8_go 0 0%N bs'
        | 1 => cp' :: utf8_go 0 0%N bs'
        | S k => utf8_go k cp' bs'
        end
      else if (b <? 224)%N then utf8_go 1 (b - 192)%N bs'
      else if (b <? 240)%N then utf8_go 2 (b - 224)%N bs'
      else utf8_go 3 (b - 240)%N bs'
  end.

Definition utf8 (s : string) : str :=
  utf8_go 0 0%N (map N_of_ascii (list_ascii_of_string s)).

Definition utf8_first (s : string) : char :=
  match utf8 s with c :: _ => c | [] => 0%N end.

(** [Py_UNICODE_ISSPACE]: the test behind [str.strip()], [str.isspace()]
    and the [\s] class of a [str] pattern. *)
Definition isspace (c : char) : bool :=
  ((9 <=? c) && (c <=? 13) || (28 <=? c) && (c <=? 32)
   || (c =? 133) || (c =? 160) || (c =? 5760)
   || (8192 <=? c) && (c <=? 8202)
   || (c =? 8232) || (c =? 8233) || (c =? 8239) || (c =? 8287)
   || (c =? 12288))%N.

Fixpoint lstrip (s : str) : str :=
  match s with
  | c :: s' => if isspace c then lstrip s' else s
  | [] => []
  end.

Definition rstrip (s : str) : str := rev (lstrip (rev s)).

(** [s.strip()] *)
Definition strip (s : str) : str := rstrip (lstrip s).

(** Truth value of a string: [if s:] *)
Definition truthy (s : str) : bool :=
  match s with [] => false | _ :: _ => true end.

Fixpoint str_eqb (a b : str) : bool :=
  match a, b with
  | [], [] => true
  | x :: a', y :: b' => (x =? y)%N && str_eqb a' b'
  | _, _ => false
  end.

(** [s.startswith(p)] *)
Fixpoint startswith (p s : str) : bool :=
  match p, s with
  | [], _ => true
  | x :: p', y :: s' => (x =? y)%N && startswith p' s'
  | _ :: _, [] => false
  end.

(** [s.split(sep)] for a non-empty [sep]: a left-to-right scan for
    non-overlapping occurrences.  [skip] counts the characters of an
    occurrence still to be passed over, [cur] is the piece being collected
    (reversed). *)
Fixpoint split_go (sep : str) (skip : nat) (cur : str) (s : str) : list str :=
  match s with
  | [] => [rev cur]
  | c :: s' =>
      match skip with
      | S k => split_go sep k cur s'
      | 0 =>
          if startswith sep s
          then rev cur :: split_go sep (length sep - 1) [] s'
          else split_go sep 0 (c :: cur) s'
      end
  end.

Definition split (sep s : str) : list str := split_go sep 0 [] s.

(** [sep.join(items)] *)
Fixpoint join (sep : str) (items : list str) : str :=
  match items with
  | [] => []
  | [x] => x
  | x :: rest => x ++ sep ++ join sep rest
  end.

(** [s.replace(old, new)] for a non-empty [old]. *)
Fixpoint replace_go (old new : str) (skip : nat) (s : str) : str :=
  match s with
  | [] => []
  | c :: s' =>
      match skip with
      | S k => replace_go old new k s'
      | 0 =>
          if startswith old s
          then new ++ replace_go old new (length old - 1) s'
          else c :: replace_go old new 0 s'
      end
  end.

Definition replace (old new s : str) : str := replace_go old new 0 s.

(** [str(n)] / an f-string field for a non-negative [int]. *)
Fixpoint uint_chars (d : Decimal.uint) : str :=
  match d with
  | Decimal.Nil => []
  | Decimal.D0 d => 48%N :: uint_chars d
  | Decimal.D1 d => 49%N :: uint_chars d
  | Decimal.D2 d => 50%N :: uint_chars d
  | Decimal.D3 d => 51%N :: uint_chars d
  | Decimal.D4 d => 52%N :: uint_chars d
  | Decimal.D5 d => 53%N :: uint_chars d
  | Decimal.D6 d => 54%N :: uint_chars d
  | Decimal.D7 d => 55%N :: uint_chars d
  | Decimal.D8 d => 56%N :: uint_chars d
  | Decimal.D9 d => 57%N :: uint_chars d
  end.

Definition str_of_int (n : nat) : str := uint_chars (Nat.to_uint n).

(** [max(xs)]: raises [ValueError] on an empty sequence. *)
Definition max_of (xs : list nat) : option nat :=
  match xs with
  | [] => None
  | x :: rest => Some (fold_left Nat.max rest x)
  end.

(** [sub in s] *)
Fixpoint contains (sub s : str) : bool :=
  startswith sub s || match s with [] => false | _ :: s' => contains sub s' end.

(** [s.count(sub)] for a non-empty [sub] (non-overlapping occurrences). *)
Fixpoint count_go (sub : str) (skip : nat) (s : str) : nat :=
  match s with
  | [] => 0
  | _ :: s' =>
      match skip with
      | S k => count_go sub k s'
      | 0 => if startswith sub s
             then S (count_go sub (length sub - 1) s')
             else count_go sub 0 s'
      end
  end.

Definition count (sub s : str) : nat := count_go sub 0 s.

(** A [dict] literal or a sequence of assignments [d[k] = v]: a key keeps
    the position of its first insertion and takes the value written last;
    iteration follows insertion order. *)
Definition dict := list (str * str).

Fixpoint dict_set (d : dict) (k v : str) : dict :=
  match d with
  | [] => [(k, v)]
  | (k', v') :: d' =>
      if str_eqb k' k then (k', v) :: d' else (k', v') :: dict_set d' k v
  end.

Definition dict_literal (items : list (str * str)) : dict :=
  fold_left (fun d kv => dict_set d (fst kv) (snd kv)) items [].

Fixpoint dict_get (d : dict) (k : str) : option str :=
  match d with
  | [] => None
  | (k', v) :: d' => if str_eqb k' k then Some v else dict_get d' k
  end.

End Py.

Import Py.

(** [u "..."] is a string literal and [chr "..."] a one-character literal of
    the source, decoded where they are written.  A Rocq string literal has no
    escape sequences: the Python literal ['\\frac'] (one backslash) is written
    [u "\frac"] here, and ['\\\\'] (two backslashes) is written [u "\\"]. *)
#[local] Notation "'u' s" :=
  (ltac:(let v := eval vm_compute in (utf8 s%string) in exact v))
  (at level 9, s at level 0, only parsing).
#[local] Notation "'chr' s" :=
  (ltac:(let v := eval vm_compute in (utf8_first s%string) in exact v))
  (at level 9, s at level 0, only parsing).

(* ================================================================== *)
(** ** The [re] module: patterns, backtracking matcher, [re.sub] *)

Module Re.

(** The pattern syntax the program uses.  Every repetition in the source is
    over a single character class ([.*?], [[^}]+], [[^)]{2,}], [\s+], ...),
    so [Rep p n greedy] stands for [p{n,}] or [p{n,}?]. *)
Inductive regex :=
| Lit (l : str)                                   (* literal text *)
| Rep (p : char -> bool) (min : nat) (greedy : bool)
| Seq (a b : regex)
| Alt (a b : regex)                               (* a|b *)
| Group (i : nat) (a : regex)                     (* i-th capturing group *)
| NotBehind (p : char -> bool).                   (* (?<![...]) *)

(** A match object: the matched text and the groups that took part. *)
Record Match := mkMatch { m_text : str; m_groups : list (nat * str) }.

Fixpoint lookup (g : list (nat * str)) (i : nat) : option str :=
  match g with
  | [] => None
  | (j, v) :: g' => if Nat.eqb j i then Some v else lookup g' i
  end.

(** [m.group(i)]: [None] for a group that did not take part. *)
Definition group (m : Match) (i : nat) : option str := lookup (m_groups m) i.

Fixpoint strip_prefix (l s : str) : option str :=
  match l, s with
  | [], _ => Some s
  | x :: l', y :: s' => if (x =? y)%N then strip_prefix l' s' else None
  | _ :: _, [] => None
  end.

Section Matcher.

Variable R : Type.

(** Greedy repetition: take as many characters as the class allows, then
    give back one at a time until the rest of the pattern matches.
    [acc] is the text consumed so far, reversed. *)
Fixpoint rep_greedy (p : char -> bool) (min : nat)
    (k : str -> str -> option R) (acc s : str) : option R :=
  let stop := match min with 0 => k acc s | S _ => None end in
  match s with
  | c :: s' =>
      if p c then
        match rep_greedy p (pred min) k (c :: acc) s' with
        | Some r => Some r
        | None => stop
        end
      else stop
  | [] => stop
  end.

(** Lazy repetition: try the rest of the pattern first, take one more
    character only when that fails. *)
Fixpoint rep_lazy (p : char -> bool) (min : nat)
    (k : str -> str -> option R) (acc s : str) : option R :=
  let more :=
    match s with
    | c :: s' => if p c then rep_lazy p (pred min) k (c :: acc) s' else None
    | [] => None
    end in
  match min with
  | 0 => match k acc s with Some r => Some r | None => more end
  | S _ => more
  end.

(** The character before the current position: the last one consumed by
    this match, or the one before the match started. *)
Definition behind (prev : option char) (acc : str) : option char :=
  match acc with c :: _ => Some c | [] => prev end.

(** Backtracking matcher in continuation-passing style.  [k] is the rest of
    the pattern; it receives the consumed text (reversed), the groups and
    the remaining input. *)
Fixpoint rmatch (prev : option char) (r : regex) (acc : str)
    (g : list (nat * str)) (s : str)
    (k : str -> list (nat * str) -> str -> option R) : option R :=
  match r with
  | Lit l =>
      match strip_prefix l s with
      | Some s' => k (rev l ++ acc) g s'
      | None => None
      end
  | Rep p min greedy =>
      (if greedy then rep_greedy else rep_lazy) p min
        (fun acc' s' => k acc' g s') acc s
  | Seq a b =>
      rmatch prev a acc g s (fun acc' g' s' => rmatch prev b acc' g' s' k)
  | Alt a b =>
      match rmatch prev a acc g s k with
      | Some m => Some m
      | None => rmatch prev b acc g s k
      end
  | Group i a =>
      rmatch prev a acc g s
        (fun acc' g' s' =>
           k acc' ((i, rev (firstn (length acc' - length acc) acc')) :: g') s')
  | NotBehind p =>
      match behind prev acc with
      | Some c => if p c then None else k acc g s
      | None => k acc g s
      end
  end.

End Matcher.

(** [pattern.match] at the current position; [prev] is the character just
    before it (for the look-behind). *)
Definition match_at (prev : option char) (r : regex) (s : str) : option Match :=
  rmatch prev r [] [] s (fun acc g _ => Some (mkMatch (rev acc) g)).

(** [re.sub(pattern, repl, text)] with a callable [repl]: one left-to-right
    scan, each match replaced by [repl(m)], the scan resuming after the
    match.  An exception in [repl] aborts the call ([None]).  Every pattern
    of the program consumes at least one character; a match of length zero
    is passed over. *)
Fixpoint sub_go (r : regex) (repl : Match -> option str)
    (prev : option char) (skip : nat) (s : str) : option str :=
  match s with
  | [] => Some []
  | c :: s' =>
      match skip with
      | S k => sub_go r repl (Some c) k s'
      | 0 =>
          match match_at prev r s with
          | Some m =>
              match m_text m with
              | [] =>
                  match sub_go r repl (Some c) 0 s' with
                  | Some rest => Some (c :: rest)
                  | None => None
                  end
              | _ :: t =>
                  match repl m with
                  | Some out =>
                      match sub_go r repl (Some c) (length t) s' with
                      | Some rest => Some (out ++ rest)
                      | None => None
                      end
                  | None => None
                  end
              end
          | None =>
              match sub_go r repl (Some c) 0 s' with
              | Some rest => Some (c :: rest)
              | None => None
              end
          end
      end
  end.

Definition sub (r : regex) (repl : Match -> option str) (s : str) : option str :=
  sub_go r repl None 0 s.

(** A replacement given as a string without group references. *)
Definition const_repl (t : str) (m : Match) : option str := Some t.

(** The replacement template [r'\1']: a group that did not take part
    expands to the empty string. *)
Definition template_1 (m : Match) : option str :=
  Some (match group m 1 with Some t => t | None => [] end).

(** Character classes. *)
Definition any (c : char) : bool := true.                     (* . with DOTALL *)
Definition is_not (x : char) (c : char) : bool := negb (c =? x)%N.
Definition alpha (c : char) : bool :=                         (* [a-zA-Z] *)
  ((97 <=? c) && (c <=? 122) || (65 <=? c) && (c <=? 90))%N.
Definition alnum (c : char) : bool :=                         (* [a-zA-Z0-9] *)
  (alpha c || (48 <=? c) && (c <=? 57))%N.

End Re.

Import Re.

Notation "a ;; b" := (Seq a b) (at level 61, right associativity).

(** Sequencing of operations that can raise. *)
Notation "'let?' x ':=' e 'in' k" :=
  (match e with Some x => k | None => None end)
  (at level 10, x name, e at level 100, k at level 200).

(* ================================================================== *)
(** ** The program: [server/utils/tex_to_text.py] *)

(** [enumerate(xs, start)] *)
Fixpoint enumerate (A : Type) (start : nat) (xs : list A) : list (nat * A) :=
  match xs with
  | [] => []
  | x :: rest => (start, x) :: enumerate (S start) rest
  end.

(** *** [_process_matrices] *)

Definition matrix_pattern : regex :=
  Lit (u "\begin{matrix}") ;; Group 1 (Rep any 0 false) ;; Lit (u "\end{matrix}").

Definition replace_matrix (m : Match) : option str :=
  let? g1 := group m 1 in
  let content := strip g1 in
  let rows := map strip (filter (fun row => truthy (strip row))
                                (split (u "\\") content)) in
  match rows with
  | [] => Some (u "пустая матрица")
  | _ :: _ =>
      let? max_cols := max_of (map (fun row => length (split (u "&") row)) rows) in
      let rows_count := length rows in
      if (rows_count =? 1) && (1 <? max_cols) then
        let? row0 := nth_error rows 0 in
        let elements := map strip (split (u "&") row0) in
        Some (u "строка из " ++ str_of_int (length elements)
              ++ u " элементов: " ++ join (u ", ") elements)
      else if (max_cols =? 1) && (1 <? rows_count) then
        let elements := map strip rows in
        Some (u "столбец из " ++ str_of_int (length elements)
              ++ u " элементов: " ++ join (u ", ") elements)
      else
        let result := u "матрица " ++ str_of_int rows_count
                      ++ u " на " ++ str_of_int max_cols in
        Some (fold_left
                (fun result ir =>
                   let elements := map strip (split (u "&") (snd ir)) in
                   result ++ u ", строка " ++ str_of_int (fst ir) ++ u ": "
                          ++ join (u ", ") elements)
                (enumerate 1 rows) result)
  end.

Definition matrix_types : dict :=
  dict_literal
    [ (u "pmatrix", u "круглые скобки");
      (u "bmatrix", u "квадратные скобки");
      (u "vmatrix", u "вертикальные черты");
      (u "Vmatrix", u "двойные вертикальные черты") ].

(** [f'\\\\begin\\{{{matrix_type}\\}}(.*?)\\\\end\\{{{matrix_type}\\}}'] *)
Definition typed_matrix_pattern (matrix_type : str) : regex :=
  Lit (u "\begin{" ++ matrix_type ++ u "}") ;; Group 1 (Rep any 0 false)
  ;; Lit (u "\end{" ++ matrix_type ++ u "}").

Definition replace_typed_matrix (description : str) (m : Match) : option str :=
  let? g1 := group m 1 in
  let content := strip g1 in
  let rows := map strip (filter (fun row => truthy (strip row))
                                (split (u "\\") content)) in
  match rows with
  | [] => Some (u "пустая матрица в " ++ description)
  | _ :: _ =>
      let? max_cols := max_of (map (fun row => length (split (u "&") row)) rows) in
      let rows_count := length rows in
      if (rows_count =? 1) && (1 <? max_cols) then
        let? row0 := nth_error rows 0 in
        let elements := map strip (split (u "&") row0) in
        Some (u "строка из " ++ str_of_int (length elements)
              ++ u " элементов в " ++ description ++ u ": "
              ++ join (u ", ") elements)
      else if (max_cols =? 1) && (1 <? rows_count) then
        let elements := map strip rows in
        Some (u "столбец из " ++ str_of_int (length elements)
              ++ u " элементов в " ++ description ++ u ": "
              ++ join (u ", ") elements)
      else
        let result := u "матрица " ++ str_of_int rows_count
                      ++ u " на " ++ str_of_int max_cols
                      ++ u " в " ++ description in
        Some (fold_left
                (fun result ir =>
                   let elements := map strip (split (u "&") (snd ir)) in
                   result ++ u ", строка " ++ str_of_int (fst ir) ++ u ": "
                          ++ join (u ", ") elements)
                (enumerate 1 rows) result)
  end.

Definition _process_matrices (text : str) : option str :=
  let? text := sub matrix_pattern replace_matrix text in
  fold_left
    (fun acc kv =>
       let? text := acc in
       sub (typed_matrix_pattern (fst kv)) (replace_typed_matrix (snd kv)) text)
    matrix_types (Some text).

(** *** [_process_fractions] *)

Definition frac_like_pattern (name : str) : regex :=
  Lit (name ++ u "{") ;; Group 1 (Rep (is_not (chr "}")) 1 true) ;; Lit (u "}{")
  ;; Group 2 (Rep (is_not (chr "}")) 1 true) ;; Lit (u "}").

Definition frac_pattern := frac_like_pattern (u "\frac").
Definition dfrac_pattern := frac_like_pattern (u "\dfrac").
Definition cfrac_pattern := frac_like_pattern (u "\cfrac").

Definition replace_frac (m : Match) : option str :=
  let? g1 := group m 1 in
  let numerator := strip g1 in
  let? g2 := group m 2 in
  let denominator := strip g2 in
  Some (u "дробь, сверху " ++ numerator ++ u ", снизу " ++ denominator).

Definition _process_fractions (text : str) : option str :=
  let? text := sub frac_pattern replace_frac text in
  let? text := sub dfrac_pattern replace_frac text in
  let? text := sub cfrac_pattern replace_frac text in
  Some text.

(** *** [_process_square_roots] *)

Definition sqrt_pattern : regex :=
  Lit (u "\sqrt{") ;; Group 1 (Rep (is_not (chr "}")) 1 true) ;; Lit (u "}").

Definition replace_sqrt (m : Match) : option str :=
  let? g1 := group m 1 in
  let content := strip g1 in
  Some (u "под корнем " ++ content ++ u " конец корня").

Definition nsqrt_pattern : regex :=
  Lit (u "\sqrt[") ;; Group 1 (Rep (is_not (chr "]")) 1 true) ;; Lit (u "]{")
  ;; Group 2 (Rep (is_not (chr "}")) 1 true) ;; Lit (u "}").

Definition replace_nsqrt (m : Match) : option str :=
  let? g1 := group m 1 in
  let degree := strip g1 in
  let? g2 := group m 2 in
  let content := strip g2 in
  Some (u "корень " ++ degree ++ u " степени под корнем " ++ content
        ++ u " конец корня").

Definition _process_square_roots (text : str) : option str :=
  let? text := sub sqrt_pattern replace_sqrt text in
  let? text := sub nsqrt_pattern replace_nsqrt text in
  Some text.

(** *** [_process_superscripts] *)

Definition superscript_pattern : regex :=
  Lit (u "^")
  ;; Group 1 (Alt (Lit (u "{") ;; Group 2 (Rep (is_not (chr "}")) 1 true) ;; Lit (u "}"))
                 (Group 3 (Rep alnum 1 true))).

(** [if match.group(2):] is false for [None] and for the empty string. *)
Definition replace_superscript (m : Match) : option str :=
  let? power :=
    match group m 2 with
    | Some (c :: t) => Some (strip (c :: t))
    | _ => let? g3 := group m 3 in Some (strip g3)
    end in
  Some (u " в степени " ++ power).

Definition _process_superscripts (text : str) : option str :=
  sub superscript_pattern replace_superscript text.

(** *** [_process_parentheses] *)

Definition func_single_pattern : regex :=
  Group 1 (Rep alpha 1 true) ;; Lit (u "(") ;; Group 2 (Rep alpha 1 true) ;; Lit (u ")").

Definition replace_func_single (m : Match) : option str :=
  let? g1 := group m 1 in
  let func_name := strip g1 in
  let? g2 := group m 2 in
  let var := strip g2 in
  Some (func_name ++ u " от " ++ var).

Definition func_complex_pattern : regex :=
  Group 1 (Rep alpha 1 true) ;; Lit (u "(")
  ;; Group 2 (Rep (is_not (chr ")")) 2 true) ;; Lit (u ")").

Definition replace_func_complex (m : Match) : option str :=
  let? g1 := group m 1 in
  let func_name := strip g1 in
  let? g2 := group m 2 in
  let content := strip g2 in
  Some (func_name ++ u " скобка открывается " ++ content ++ u " скобка закрывается").

Definition single_var_pattern : regex :=
  NotBehind alpha ;; Lit (u "(") ;; Group 1 (Rep alpha 1 true) ;; Lit (u ")").

Definition replace_single_var (m : Match) : option str :=
  let? g1 := group m 1 in
  let var := strip g1 in
  Some (u "от " ++ var).

Definition var_minus_pattern : regex :=
  NotBehind alpha ;; Lit (u "(") ;; Group 1 (Rep alpha 1 true) ;; Lit (u "-")
  ;; Group 2 (Rep alnum 1 true) ;; Lit (u ")").

Definition replace_var_minus (m : Match) : option str :=
  let? g1 := group m 1 in
  let var1 := strip g1 in
  let? g2 := group m 2 in
  let var2 := strip g2 in
  Some (u "от " ++ var1 ++ u " минус " ++ var2).

Definition complex_paren_pattern : regex :=
  Lit (u "(") ;; Group 1 (Rep (is_not (chr ")")) 2 true) ;; Lit (u ")").

Definition replace_complex_paren (m : Match) : option str :=
  let? g1 := group m 1 in
  let content := strip g1 in
  Some (u "скобка открывается " ++ content ++ u " скобка закрывается").

Definition _process_parentheses (text : str) : option str :=
  let? text := sub func_single_pattern replace_func_single text in
  let? text := sub func_complex_pattern replace_func_complex text in
  let? text := sub single_var_pattern replace_single_var text in
  let? text := sub var_minus_pattern replace_var_minus text in
  let? text := sub complex_paren_pattern replace_complex_paren text in
  Some text.

(** *** The substitution tables *)

(** [for k, v in table.items(): text = text.replace(k, v)] *)
Definition replace_all (table : dict) (text : str) : str :=
  fold_left (fun text kv => replace (fst kv) (snd kv) text) table text.

Module MathSymbols.
Definition symbols : dict :=
  dict_literal
    [ (u "+", u " плюс ");
      (u "-", u " минус ");
      (u "*", u " умножить на ");
      (u "\cdot", u " умножить на ");
      (u "\times", u " умножить на ");
      (u "\div", u " разделить на ");
      (u "=", u " равно ");
      (u "\neq", u " не равно ");
      (u "<", u " меньше ");
      (u ">", u " больше ");
      (u "\leq", u " меньше или равно ");
      (u "\geq", u " больше или равно ");
      (u "\approx", u " приблизительно равно ");
      (u "\equiv", u " тождественно равно ");
      (u "\propto", u " пропорционально ");
      (u "\infty", u " бесконечность ");
      (u "\pm", u " плюс минус ");
      (u "\mp", u " минус плюс ");
      (u "\sum", u " сумма ");
      (u "\prod", u " произведение ");
      (u "\int", u " интеграл ");
      (u "\lim", u " предел ");
      (u "\sin", u " синус ");
      (u "\cos", u " косинус ");
      (u "\tan", u " тангенс ");
      (u "\log", u " логарифм ");
      (u "\ln", u " натуральный логарифм ");
      (u "\exp", u " экспонента ") ].
End MathSymbols.

Definition _process_math_symbols (text : str) : str :=
  replace_all MathSymbols.symbols text.

Definition styling_commands : list (str * str) :=
  [ (u "\text{", u " ");
    (u "\textbf{", u " ");
    (u "\textit{", u " ");
    (u "\emph{", u " ");
    (u "\underline{", u " ");
    (u "\overline{", u " ");
    (u "\hat{", u " ");
    (u "\tilde{", u " ");
    (u "\vec{", u " ");
    (u "\bar{", u " ");
    (u "\dot{", u " ");
    (u "\ddot{", u " ") ].

Definition lowercase_greek : list (str * str) :=
  [ (u "\alpha", u "альфа");
    (u "\beta", u "бета");
    (u "\gamma", u "гамма");
    (u "\delta", u "дельта");
    (u "\epsilon", u "эпсилон");
    (u "\varepsilon", u "эпсилон");
    (u "\zeta", u "дзета");
    (u "\eta", u "эта");
    (u "\theta", u "тета");
    (u "\vartheta", u "тета");
    (u "\iota", u "йота");
    (u "\kappa", u "каппа");
    (u "\lambda", u "лямбда");
    (u "\mu", u "мю");
    (u "\nu", u "ню");
    (u "\xi", u "кси");
    (u "\pi", u "пи");
    (u "\varpi", u "пи");
    (u "\rho", u "ро");
    (u "\varrho", u "ро");
    (u "\sigma", u "сигма");
    (u "\varsigma", u "сигма");
    (u "\tau", u "тау");
    (u "\upsilon", u "ипсилон");
    (u "\phi", u "фи");
    (u "\varphi", u "фи");
    (u "\chi", u "хи");
    (u "\psi", u "пси");
    (u "\omega", u "омега") ].

(** The [commands] table of [_process_common_commands]: the styling
    commands first, then the lowercase Greek letters. *)
Definition commands : dict := dict_literal (styling_commands ++ lowercase_greek).

Definition brace_group_pattern : regex :=
  Lit (u "{") ;; Group 1 (Rep (is_not (chr "}")) 0 true) ;; Lit (u "}").

Definition _process_common_commands (text : str) : option str :=
  let text := replace_all commands text in
  sub brace_group_pattern template_1 text.

Definition greek_letters : dict :=
  dict_literal
    [ (u "\Alpha", u "Альфа");
      (u "\Beta", u "Бета");
      (u "\Gamma", u "Гамма");
      (u "\Delta", u "Дельта");
      (u "\Epsilon", u "Эпсилон");
      (u "\Zeta", u "Дзета");
      (u "\Eta", u "Эта");
      (u "\Theta", u "Тета");
      (u "\Iota", u "Йота");
      (u "\Kappa", u "Каппа");
      (u "\Lambda", u "Лямбда");
      (u "\Mu", u "Мю");
      (u "\Nu", u "Ню");
      (u "\Xi", u "Кси");
      (u "\Pi", u "Пи");
      (u "\Rho", u "Ро");
      (u "\Sigma", u "Сигма");
      (u "\Tau", u "Тау");
      (u "\Upsilon", u "Ипсилон");
      (u "\Phi", u "Фи");
      (u "\Chi", u "Хи");
      (u "\Psi", u "Пси");
      (u "\Omega", u "Омега") ].

Definition _process_greek_letters (text : str) : str :=
  replace_all greek_letters text.

Module SpecialSymbols.
(** The entries as the literal lists them, duplicates included. *)
Definition entries : list (str * str) :=
  [ (u "\rightarrow", u " стрелка вправо ");
    (u "\leftarrow", u " стрелка влево ");
    (u "\leftrightarrow", u " стрелка в обе стороны ");
    (u "\Rightarrow", u " двойная стрелка вправо ");
    (u "\Leftarrow", u " двойная стрелка влево ");
    (u "\Leftrightarrow", u " двойная стрелка в обе стороны ");
    (u "\uparrow", u " стрелка вверх ");
    (u "\downarrow", u " стрелка вниз ");
    (u "\updownarrow", u " стрелка вверх-вниз ");
    (u "\in", u " принадлежит ");
    (u "\notin", u " не принадлежит ");
    (u "\subset", u " подмножество ");
    (u "\supset", u " надмножество ");
    (u "\subseteq", u " подмножество или равно ");
    (u "\supseteq", u " надмножество или равно ");
    (u "\cup", u " объединение ");
    (u "\cap", u " пересечение ");
    (u "\emptyset", u " пустое множество ");
    (u "\varnothing", u " пустое множество ");
    (u "\forall", u " для всех ");
    (u "\exists", u " существует ");
    (u "\nexists", u " не существует ");
    (u "\land", u " и ");
    (u "\lor", u " или ");
    (u "\lnot", u " не ");
    (u "\neg", u " не ");
    (u "\Rightarrow", u " следовательно ");
    (u "\Leftrightarrow", u " тогда и только тогда ");
    (u "\iff", u " тогда и только тогда ") ].

Definition symbols : dict := dict_literal entries.
End SpecialSymbols.

Definition _process_special_symbols (text : str) : str :=
  replace_all SpecialSymbols.symbols text.

(** *** [latex_to_text] *)

(** [re.sub(r'\s+', ' ', text)] *)
Definition whitespace_pattern : regex := Rep isspace 1 true.

Definition latex_to_text (latex_code : str) : option str :=
  if negb (truthy latex_code) then Some []
  else
    let text := strip latex_code in
    let? text := _process_matrices text in
    let? text := _process_fractions text in
    let? text := _process_square_roots text in
    let? text := _process_superscripts text in
    let? text := _process_parentheses text in
    let text := _process_math_symbols text in
    let? text := _process_common_commands text in
    let text := _process_greek_letters text in
    let text := _process_special_symbols text in
    let? text := sub whitespace_pattern (const_repl (u " ")) text in
    Some (strip text).

(* ================================================================== *)
(** ** Vocabulary of the specification *)

(** The rows of a matrix body, as both callbacks compute them: the body is
    trimmed, cut at every row break, and blank pieces are dropped. *)
Definition matrix_rows (body : str) : list str :=
  map strip (filter (fun row => truthy (strip row)) (split (u "\\") (strip body))).

(** The cells of a row, trimmed. *)
Definition cells (row : str) : list str := map strip (split (u "&") row).

(** The narration of a matrix as the specification words it; [style] is
    empty for the plain environment and names the delimiters otherwise. *)
Definition row_phrase (ir : nat * str) : str :=
  u ", строка " ++ str_of_int (fst ir) ++ u ": " ++ join (u ", ") (cells (snd ir)).

Definition matrix_phrase (style : str) (rows : list str) : str :=
  u "матрица " ++ str_of_int (length rows) ++ u " на "
  ++ str_of_int (list_max (map (fun row => length (cells row)) rows))
  ++ style ++ concat (map row_phrase (enumerate 1 rows)).

Definition spec_narration (style : str) (rows : list str) : str :=
  match rows with
  | [] => u "пустая матрица" ++ style
  | [row] =>
      if 1 <? length (cells row)
      then u "строка из " ++ str_of_int (length (cells row)) ++ u " элементов"
           ++ style ++ u ": " ++ join (u ", ") (cells row)
      else matrix_phrase style rows
  | _ :: _ :: _ =>
      if forallb (fun row => length (cells row) =? 1) rows
      then u "столбец из " ++ str_of_int (length rows) ++ u " элементов"
           ++ style ++ u ": " ++ join (u ", ") rows
      else matrix_phrase style rows
  end.

(** The delimiter annotation of a typed environment. *)
Definition style_of (description : str) : str := u " в " ++ description.



(** Running the transform on its own output. *)
Definition twice (s : str) : option str :=
  let? t := latex_to_text s in latex_to_text t.

Definition keys (d : dict) : list str := map fst d.

(** The trigger tokens of every substitution table. *)
Definition table_keys : list str :=
  keys MathSymbols.symbols ++ keys commands ++ keys greek_letters
  ++ keys SpecialSymbols.symbols.

(** The phrase a table entry announces once surrounding blanks are
    normalised away. *)
Definition spoken (phrase : str) : str := strip phrase.

(** What it means for a pattern to match the text [x], declaratively:
    [acc] is the text before [x] inside the current match (reversed), [g]
    the groups on entry, [g'] the groups on exit. *)
Fixpoint matches (prev : option char) (r : regex) (acc : str)
    (g : list (nat * str)) (x : str) (g' : list (nat * str)) : Prop :=
  match r with
  | Lit l => x = l /\ g' = g
  | Rep p min _ => forallb p x = true /\ min <= length x /\ g' = g
  | Seq a b =>
      exists x1 x2 g1,
        x = x1 ++ x2 /\ matches prev a acc g x1 g1
        /\ matches prev b (rev x1 ++ acc) g1 x2 g'
  | Alt a b => matches prev a acc g x g' \/ matches prev b acc g x g'
  | Group i a => exists g1, matches prev a acc g x g1 /\ g' = (i, x) :: g1
  | NotBehind p =>
      x = [] /\ g' = g /\ forall c, behind prev acc = Some c -> p c = false
  end.


(** The narration of an exponent [P]. *)
Definition power_phrase (P : str) : str := u " в степени " ++ strip P.

(** The least number of characters a pattern consumes. *)
Fixpoint min_len (r : regex) : nat :=
  match r with
  | Lit l => length l
  | Rep _ min _ => min
  | Seq a b => min_len a + min_len b
  | Alt a b => Nat.min (min_len a) (min_len b)
  | Group _ a => min_len a
  | NotBehind _ => 0
  end.

(** The patterns of the program, the typed matrix pattern apart. *)
Definition fixed_patterns : list regex :=
  [ matrix_pattern; frac_pattern; dfrac_pattern; cfrac_pattern; sqrt_pattern;
    nsqrt_pattern; superscript_pattern; func_single_pattern;
    func_complex_pattern; single_var_pattern; var_minus_pattern;
    complex_paren_pattern; brace_group_pattern; whitespace_pattern ].

(** Equality tests, for checking a property on every entry of a table. *)
Definition opt_str_eqb (a b : option str) : bool :=
  match a, b with
  | Some x, Some y => str_eqb x y
  | None, None => true
  | _, _ => false
  end.

(** The transform is stable on [s]: a second run returns what the first
    run returned. *)
Definition stable (s : str) : Prop := twice s = latex_to_text s.

Definition stableb (s : str) : bool := opt_str_eqb (twice s) (latex_to_text s).

(** The transform turns the trigger of a table entry into its phrase. *)
Definition announces (kv : str * str) : Prop :=
  latex_to_text (fst kv) = Some (spoken (snd kv)).

Definition announcesb (kv : str * str) : bool :=
  opt_str_eqb (latex_to_text (fst kv)) (Some (spoken (snd kv))).

(* ================================================================== *)
(** ** Further vocabulary: roots, plain text, blanks *)

(** The narration of a root of [X], and of a root of degree [D]. *)
Definition root_phrase (X : str) : str :=
  u "под корнем " ++ strip X ++ u " конец корня".

Definition indexed_root_phrase (D X : str) : str :=
  u "корень " ++ strip D ++ u " степени под корнем " ++ strip X
  ++ u " конец корня".

(** The narration of a function of one variable. *)
Definition function_phrase (F V : str) : str := F ++ u " от " ++ V.

(** The narrations of the other sub-rules for parentheses: an expression
    [C] in parentheses, a name [F] applied to an expression, a variable
    [V] in parentheses, and a difference of [A] and [B] in parentheses. *)
Definition expression_phrase (C : str) : str :=
  u "скобка открывается " ++ strip C ++ u " скобка закрывается".

Definition function_expression_phrase (F C : str) : str :=
  F ++ u " " ++ expression_phrase C.

Definition variable_phrase (V : str) : str := u "от " ++ V.

Definition difference_phrase (A B : str) : str :=
  u "от " ++ A ++ u " минус " ++ B.

(** The characters without which no stage before the final normalisation
    can rewrite anything: every pattern and every table key holds one. *)
Definition trigger_chars : str := u "\^({+-*=<>".

Definition is_trigger (c : char) : bool := existsb (N.eqb c) trigger_chars.

(** A text none of whose characters is a trigger. *)
Definition plain (s : str) : bool := forallb (fun c => negb (is_trigger c)) s.

(** The longest prefix of characters of a class. *)
Fixpoint take_while (p : char -> bool) (s : str) : str :=
  match s with
  | c :: s' => if p c then c :: take_while p s' else []
  | [] => []
  end.

(** Every run of blanks replaced by one space; [in_run] tells that the
    character before was a blank. *)
Fixpoint collapse_go (in_run : bool) (s : str) : str :=
  match s with
  | [] => []
  | c :: s' =>
      if isspace c
      then if in_run then collapse_go true s' else chr " " :: collapse_go true s'
      else c :: collapse_go false s'
  end.

Definition collapse (s : str) : str := collapse_go false s.

(** Every blank is a space and no two blanks are adjacent; with
    [after_blank] the text may not begin with a blank either. *)
Fixpoint spaced (after_blank : bool) (s : str) : bool :=
  match s with
  | [] => true
  | c :: s' =>
      if isspace c
      then negb after_blank && (c =? chr " ")%N && spaced true s'
      else spaced false s'
  end.

(* ================================================================== *)
(** ** The speech front end: [edge/voice.py] and [latex_to_speech] *)

(** [str(n)] for an [int] of either sign. *)
Definition str_of_Z (z : Z) : str :=
  match z with
  | Z0 => u "0"
  | Zpos p => str_of_int (Pos.to_nat p)
  | Zneg p => u "-" ++ str_of_int (Pos.to_nat p)
  end.

Module Voice.

(** The exceptions that travel through this module: the [RuntimeError] it
    raises itself, the [CalledProcessError] of [subprocess.run(check=True)]
    with its return code, and any other exception. *)
Inductive exn :=
| RuntimeError (msg : str)
| CalledProcessError (returncode : Z)
| OtherError.

(** What a call does to the outside world, in order: the commands it runs
    and the lines it prints.  [PrintExc prefix e] is [print(f"prefix{e}")]. *)
Inductive event :=
| Exec (cmd : list str)
| Print (msg : str)
| PrintExc (prefix : str) (e : exn).

(** The surroundings of a call, taken not to change while it runs:
    [shutil.which], [subprocess.run(cmd, check=True)] ([None] when the
    command completes) and the capturing run of [list_rhvoice_voices]
    ([None] when it raises, else stdout and stderr). *)
Record env := mkEnv {
  which : str -> option str;
  run : list str -> option exn;
  capture : list str -> option (option str * option str)
}.

Definition is_spd_say_available (e : env) : bool :=
  match which e (u "spd-say") with Some _ => true | None => false end.

Definition is_rhvoice_available (e : env) : bool := is_spd_say_available e.

(** [if x:] for an [Optional[str]]. *)
Definition given (x : option str) : bool :=
  match x with Some (_ :: _) => true | _ => false end.

(** [x or ""] *)
Definition or_empty (x : option str) : str :=
  match x with Some t => t | None => [] end.

(** [speak_rhvoice]: the events of the call and the exception it raises, if
    any. *)
Definition speak_rhvoice (e : env) (text : str) (voice : option str)
    (rate pitch volume : option Z) (lang module : option str)
    (convert_latex : bool) : list event * option exn :=
  if negb (truthy text) then ([], None)
  else
    match (if convert_latex then latex_to_text text else Some text) with
    | None => ([], Some OtherError)
    | Some text =>
        if negb (is_spd_say_available e)
        then ([], Some (RuntimeError
                          (u "spd-say не найден. Установите speech-dispatcher и RHVoice.")))
        else
          let cmd := [u "spd-say"] in
          let cmd := if given module then cmd ++ [u "-o"; or_empty module] else cmd in
          let cmd := if given lang then cmd ++ [u "-l"; or_empty lang] else cmd in
          let cmd := if given voice then cmd ++ [u "-y"; or_empty voice] else cmd in
          let cmd := match rate with
                     | Some r => cmd ++ [u "-r"; str_of_Z r]
                     | None => cmd
                     end in
          let cmd := match pitch with
                     | Some r => cmd ++ [u "-p"; str_of_Z r]
                     | None => cmd
                     end in
          let cmd := match volume with
                     | Some r => cmd ++ [u "-i"; str_of_Z r]
                     | None => cmd
                     end in
          let cmd := cmd ++ [text] in
          ([Exec cmd], run e cmd)
    end.

Definition list_rhvoice_voices (e : env) : str :=
  if negb (is_spd_say_available e) then []
  else
    match capture e [u "spd-say"; u "-L"] with
    | Some (out, err) => or_empty out ++ or_empty err
    | None => []
    end.

(** The local variables of [main] that the argument loop updates. *)
Record options := mkOptions {
  text_parts : list str;
  lang : option str;
  voice : option str;
  rate : option Z;
  pitch : option Z;
  volume : option Z;
  list_only : bool;
  module : option str;
  convert_latex : bool
}.

Definition initial : options :=
  mkOptions [] (Some (u "ru")) None None None None false None true.

Definition set_text_parts (o : options) (v : list str) : options :=
  mkOptions v (lang o) (voice o) (rate o) (pitch o) (volume o) (list_only o)
            (module o) (convert_latex o).
Definition set_lang (o : options) (v : option str) : options :=
  mkOptions (text_parts o) v (voice o) (rate o) (pitch o) (volume o)
            (list_only o) (module o) (convert_latex o).
Definition set_voice (o : options) (v : option str) : options :=
  mkOptions (text_parts o) (lang o) v (rate o) (pitch o) (volume o)
            (list_only o) (module o) (convert_latex o).
Definition set_rate (o : options) (v : option Z) : options :=
  mkOptions (text_parts o) (lang o) (voice o) v (pitch o) (volume o)
            (list_only o) (module o) (convert_latex o).
Definition set_pitch (o : options) (v : option Z) : options :=
  mkOptions (text_parts o) (lang o) (voice o) (rate o) v (volume o)
            (list_only o) (module o) (convert_latex o).
Definition set_volume (o : options) (v : option Z) : options :=
  mkOptions (text_parts o) (lang o) (voice o) (rate o) (pitch o) v
            (list_only o) (module o) (convert_latex o).
Definition set_list_only (o : options) (v : bool) : options :=
  mkOptions (text_parts o) (lang o) (voice o) (rate o) (pitch o) (volume o) v
            (module o) (convert_latex o).
Definition set_module (o : options) (v : option str) : options :=
  mkOptions (text_parts o) (lang o) (voice o) (rate o) (pitch o) (volume o)
            (list_only o) v (convert_latex o).
Definition set_convert_latex (o : options) (v : bool) : options :=
  mkOptions (text_parts o) (lang o) (voice o) (rate o) (pitch o) (volume o)
            (list_only o) (module o) v.

Section Main.

(** Two functions of the Python library that [main] applies to its
    arguments: [int(s)] ([None] when it raises [ValueError]) and
    [s.lower()]. *)
Variable py_int : str -> option Z.
Variable py_lower : str -> str.

(** The [while i < len(args)] loop of [main].  The tests come in the order
    of the source; the first branch is [i + 1 < len(args)], the second is
    the last argument, where the tests that ask for a following argument
    all fail.  [None] is the [ValueError] of [int], which [main] does not
    catch. *)
Fixpoint parse_loop (args : list str) (o : options) : option options :=
  match args with
  | [] => Some o
  | a :: rest =>
      match rest with
      | v :: rest' =>
          if str_eqb a (u "--lang")
          then parse_loop rest' (set_lang o (Some (py_lower (strip v))))
          else if str_eqb a (u "--voice")
          then parse_loop rest' (set_voice o (Some (strip v)))
          else if str_eqb a (u "--rate")
          then let? n := py_int v in parse_loop rest' (set_rate o (Some n))
          else if str_eqb a (u "--pitch")
          then let? n := py_int v in parse_loop rest' (set_pitch o (Some n))
          else if str_eqb a (u "--volume")
          then let? n := py_int v in parse_loop rest' (set_volume o (Some n))
          else if str_eqb a (u "--list")
          then parse_loop rest (set_list_only o true)
          else if str_eqb a (u "--module")
          then parse_loop rest' (set_module o (Some (strip v)))
          else if str_eqb a (u "--no-latex")
          then parse_loop rest (set_convert_latex o false)
          else parse_loop rest (set_text_parts o (text_parts o ++ [a]))
      | [] =>
          if str_eqb a (u "--list")
          then parse_loop rest (set_list_only o true)
          else if str_eqb a (u "--no-latex")
          then parse_loop rest (set_convert_latex o false)
          else parse_loop rest (set_text_parts o (text_parts o ++ [a]))
      end
  end.

Definition greeting : str := u "Привет! Это RHVoice.".

(** [main]: the events and the exit code, or [None] when the [ValueError]
    of [int] escapes.  [argv] is [sys.argv]. *)
Definition main (e : env) (argv : list str) : option (list event * Z) :=
  let args := filter truthy (tl argv) in
  let? o := parse_loop args initial in
  if list_only o then
    let voices := list_rhvoice_voices e in
    Some ([Print (if truthy voices then voices
                  else u "Список голосов пуст. Убедитесь, что установлен RHVoice и настроен speech-dispatcher.")],
          0%Z)
  else
    let text := strip (join (u " ") (text_parts o)) in
    let text := if negb (truthy text) then greeting else text in
    if negb (is_rhvoice_available e)
    then Some ([Print (u "Speech Dispatcher (spd-say) не обнаружен. Установите 'speech-dispatcher'.")],
               1%Z)
    else
      let result := speak_rhvoice e text (voice o) (rate o) (pitch o) (volume o)
                      (lang o) (module o) (convert_latex o) in
      match snd result with
      | None => Some (fst result, 0%Z)
      | Some (CalledProcessError rc) =>
          Some (fst result
                ++ [PrintExc (u "Ошибка запуска RHVoice: ") (CalledProcessError rc)],
                if (rc =? 0)%Z then 1%Z else rc)
      | Some exc => Some (fst result ++ [PrintExc (u "Ошибка: ") exc], 1%Z)
      end.

End Main.

(** [latex_to_speech] of [tex_to_text.py]; [importable] tells whether
    [from voice import speak_rhvoice] succeeds. *)
Definition latex_to_speech (importable : bool) (e : env) (latex_code : str)
    (voice : str) (rate : Z) (lang : str) : list event :=
  if negb importable
  then [Print (u "Ошибка: модуль voice не найден. Установите speech-dispatcher и RHVoice.")]
  else
    match latex_to_text latex_code with
    | None => [PrintExc (u "Ошибка озвучивания: ") OtherError]
    | Some text =>
        let result := speak_rhvoice e text (Some voice) (Some rate) None None
                        (Some lang) None true in
        match snd result with
        | None => fst result
        | Some exc => fst result ++ [PrintExc (u "Ошибка озвучивания: ") exc]
        end
    end.

End Voice.

(** The arguments an option contributes to the command line. *)
Definition flag (name : str) (value : option str) : list str :=
  match value with
  | Some (c :: v) => [name; c :: v]
  | _ => []
  end.

Definition number_flag (name : str) (value : option Z) : list str :=
  match value with
  | Some n => [name; str_of_Z n]
  | None => []
  end.

(** The eight words the argument loop of [main] looks for. *)
Definition flag_words : list str :=
  [ u "--lang"; u "--voice"; u "--rate"; u "--pitch"; u "--volume"; u "--list";
    u "--module"; u "--no-latex" ].

Definition is_flag_word (a : str) : bool := existsb (str_eqb a) flag_words.

(** The flag words that take the following argument as their value. *)
Definition value_flags : list str :=
  [ u "--lang"; u "--voice"; u "--rate"; u "--pitch"; u "--volume"; u "--module" ].

(** An argument of blanks only. *)
Definition blank (a : str) : bool := forallb isspace a.

Definition is_exec (ev : Voice.event) : bool :=
  match ev with Voice.Exec _ => true | _ => false end.

(* ================================================================== *)
(** ** Soundness of the matcher *)

Section MatcherSound.

Variable R : Type.

Lemma strip_prefix_sound (l s s' : str) :
  strip_prefix l s = Some s' -> s = l ++ s'.
Proof.
  revert s; induction l as [|x l IH]; intros [|y s]; simpl; try congruence.
  destruct (N.eqb_spec x y); try congruence.
  intros H; subst; f_equal; auto.
Qed.

Lemma strip_prefix_app (l s : str) : strip_prefix l (l ++ s) = Some s.
Proof.
  induction l as [|x l IH]; simpl; [reflexivity|].
  now rewrite N.eqb_refl.
Qed.

Lemma rep_greedy_sound p (k : str -> str -> option R) :
  forall s min acc res,
    rep_greedy p min k acc s = Some res ->
    exists x s', s = x ++ s' /\ forallb p x = true /\ min <= length x
                 /\ k (rev x ++ acc) s' = Some res.
Proof.
  assert (Hstop : forall s min acc res,
             match min with 0 => k acc s | S _ => None end = Some res ->
             exists x s', s = x ++ s' /\ forallb p x = true /\ min <= length x
                          /\ k (rev x ++ acc) s' = Some res).
  { intros s [|m] acc res H; [|discriminate].
    exists [], s; simpl; auto. }
  induction s as [|c s IH]; intros min acc res H; simpl in H.
  - apply Hstop; assumption.
  - destruct (p c) eqn:Hp; [|apply Hstop; assumption].
    destruct (rep_greedy p (pred min) k (c :: acc) s) as [r|] eqn:Hr.
    + injection H as <-.
      destruct (IH _ _ _ Hr) as (x & s' & -> & Hx & Hlen & Hk).
      exists (c :: x), s'; simpl; rewrite Hp, Hx.
      repeat split; [lia|].
      now rewrite <- app_assoc.
    + apply Hstop; assumption.
Qed.

Lemma rep_lazy_sound p (k : str -> str -> option R) :
  forall s min acc res,
    rep_lazy p min k acc s = Some res ->
    exists x s', s = x ++ s' /\ forallb p x = true /\ min <= length x
                 /\ k (rev x ++ acc) s' = Some res.
Proof.
  induction s as [|c s IH]; intros min acc res H.
  - destruct min; simpl in H; [|discriminate].
    destruct (k acc []) eqn:Hk; [|discriminate].
    exists [], []; simpl; repeat split; auto; congruence.
  - assert (Hmore :
        (if p c then rep_lazy p (pred min) k (c :: acc) s else None) = Some res ->
        exists x s', c :: s = x ++ s' /\ forallb p x = true /\ min <= length x
                     /\ k (rev x ++ acc) s' = Some res).
    { destruct (p c) eqn:Hp; [|discriminate].
      intros Hr. destruct (IH _ _ _ Hr) as (x & s' & -> & Hx & Hlen & Hk).
      exists (c :: x), s'; simpl; rewrite Hp, Hx.
      repeat split; [lia|].
      now rewrite <- app_assoc. }
    destruct min; simpl in H; [|auto].
    destruct (k acc (c :: s)) eqn:Hk; [|auto].
    exists [], (c :: s); simpl; repeat split; auto with arith; congruence.
Qed.

(** Whatever the matcher accepts is a match in the declarative sense. *)
Lemma rmatch_sound prev :
  forall r acc g s (k : str -> list (nat * str) -> str -> option R) res,
    rmatch prev r acc g s k = Some res ->
    exists x g' s',
      s = x ++ s' /\ matches prev r acc g x g' /\ k (rev x ++ acc) g' s' = Some res.
Proof.
  induction r as [l|p min greedy|a IHa b IHb|a IHa b IHb|i a IHa|p];
    intros acc g s k res H; simpl in H.
  - destruct (strip_prefix l s) as [s'|] eqn:Hl; [|discriminate].
    apply strip_prefix_sound in Hl.
    exists l, g, s'; simpl; auto.
  - assert (Hx : exists x s', s = x ++ s' /\ forallb p x = true
                    /\ min <= length x /\ k (rev x ++ acc) g s' = Some res).
    { destruct greedy;
        [apply rep_greedy_sound in H | apply rep_lazy_sound in H]; exact H. }
    destruct Hx as (x & s' & -> & Hx & Hlen & Hk).
    exists x, g, s'; simpl; auto.
  - apply IHa in H. destruct H as (x1 & g1 & s1 & -> & Ha & H).
    apply IHb in H. destruct H as (x2 & g2 & s2 & -> & Hb & H).
    exists (x1 ++ x2), g2, s2. rewrite <- app_assoc. split; [reflexivity|].
    split; [exists x1, x2, g1; auto|].
    now rewrite rev_app_distr, <- app_assoc.
  - destruct (rmatch prev a acc g s k) as [m|] eqn:Ha.
    + injection H as <-. apply IHa in Ha.
      destruct Ha as (x & g' & s' & -> & Ha & Hk).
      exists x, g', s'; simpl; auto.
    + apply IHb in H. destruct H as (x & g' & s' & -> & Hb & Hk).
      exists x, g', s'; simpl; auto.
  - apply IHa in H. destruct H as (x & g1 & s' & -> & Ha & Hk).
    rewrite length_app, length_rev, Nat.add_sub in Hk.
    rewrite <- (length_rev x), firstn_app, Nat.sub_diag, firstn_all in Hk.
    simpl in Hk. rewrite app_nil_r, rev_involutive in Hk.
    exists x, ((i, x) :: g1), s'; simpl; eauto.
  - exists [], g, s; simpl.
    destruct (behind prev acc) as [c|] eqn:Hb.
    + destruct (p c) eqn:Hp; [discriminate|].
      repeat split; auto. intros c' [= <-]; assumption.
    + repeat split; auto. discriminate.
Qed.

End MatcherSound.

(** A successful [match_at] returns the matched text and the groups of a
    declarative match. *)
Lemma match_at_sound prev r s m :
  match_at prev r s = Some m ->
  exists s', s = m_text m ++ s' /\ matches prev r [] [] (m_text m) (m_groups m).
Proof.
  unfold match_at; intros H.
  apply rmatch_sound in H. destruct H as (x & g' & s' & -> & Hm & [= <-]).
  simpl. rewrite app_nil_r, rev_involutive. eauto.
Qed.

Lemma matches_min_len prev r :
  forall acc g x g', matches prev r acc g x g' -> min_len r <= length x.
Proof.
  induction r as [l|p min greedy|a IHa b IHb|a IHa b IHb|i a IHa|p];
    intros acc g x g' H; cbn [matches min_len] in *.
  - destruct H as [-> _]. lia.
  - destruct H as (_ & H & _). exact H.
  - destruct H as (x1 & x2 & g1 & -> & Ha & Hb).
    apply IHa in Ha. apply IHb in Hb. rewrite length_app. lia.
  - destruct H as [H|H]; [apply IHa in H|apply IHb in H]; lia.
  - destruct H as (g1 & H & _). eapply IHa; eassumption.
  - lia.
Qed.

(** No pattern of the program matches the empty text, so the scan of
    [re.sub] never meets a match of length zero. *)
Lemma patterns_consume :
  Forall (fun r => forall prev s m,
              match_at prev r s = Some m -> m_text m <> []) fixed_patterns
  /\ (forall matrix_type prev s m,
         match_at prev (typed_matrix_pattern matrix_type) s = Some m ->
         m_text m <> []).
Proof.
  assert (H : forall r, 1 <= min_len r ->
                        forall prev s m, match_at prev r s = Some m -> m_text m <> []).
  { intros r Hr prev s m Hm. apply match_at_sound in Hm.
    destruct Hm as (s' & _ & Hm). apply matches_min_len in Hm.
    destruct (m_text m); [simpl in Hm; lia|discriminate]. }
  split.
  - unfold fixed_patterns. repeat constructor; apply H; vm_compute; lia.
  - intros ty. apply H. cbn [typed_matrix_pattern min_len].
    unfold typed_matrix_pattern. cbn [min_len]. rewrite !length_app. simpl. lia.
Qed.

(* ================================================================== *)
(** ** No stage raises *)

(** [re.sub] returns whenever the callback returns on every match. *)
Lemma sub_go_total r repl :
  (forall prev s m, match_at prev r s = Some m -> exists t, repl m = Some t) ->
  forall s prev skip, exists t, sub_go r repl prev skip s = Some t.
Proof.
  intros Hrepl; induction s as [|c s IH]; intros prev skip; simpl.
  - eauto.
  - destruct skip as [|n]; [|apply IH].
    destruct (match_at prev r (c :: s)) as [m|] eqn:Hm.
    + destruct (m_text m) as [|c' t].
      * destruct (IH (Some c) 0) as [rest ->]; eauto.
      * destruct (Hrepl _ _ _ Hm) as [out ->].
        destruct (IH (Some c) (length t)) as [rest ->]; eauto.
    + destruct (IH (Some c) 0) as [rest ->]; eauto.
Qed.

Lemma sub_total r repl :
  (forall prev s m, match_at prev r s = Some m -> exists t, repl m = Some t) ->
  forall s, exists t, sub r repl s = Some t.
Proof. intros H s; apply sub_go_total, H. Qed.

(** Unfolds a declarative match of a concrete pattern into its pieces. *)
Ltac split_match H :=
  cbn [matches] in H;
  repeat match goal with
         | H' : exists _, _ |- _ => destruct H' as [? H']
         | H' : _ /\ _ |- _ => destruct H' as [? H']
         end;
  subst.

Ltac groups_of Hm m :=
  let s' := fresh "s'" in
  let E := fresh "E" in
  apply match_at_sound in Hm; destruct Hm as (s' & E & Hm);
  unfold group; destruct m as [txt gs]; cbn [m_text m_groups] in *.

Lemma max_of_cons x xs : exists n, max_of (x :: xs) = Some n.
Proof. simpl; eauto. Qed.

Lemma replace_matrix_total prev s m :
  match_at prev matrix_pattern s = Some m -> exists t, replace_matrix m = Some t.
Proof.
  intros Hm; unfold matrix_pattern in Hm; groups_of Hm m; split_match Hm.
  unfold replace_matrix, group; cbn [m_groups lookup Nat.eqb].
  match goal with |- context [map strip ?l] => destruct (map strip l) as [|row rows] end;
    [eauto|].
  cbn [map max_of nth_error length].
  repeat match goal with |- context [if ?b then _ else _] => destruct b end; eauto.
Qed.

Lemma replace_typed_matrix_total prev ty d s m :
  match_at prev (typed_matrix_pattern ty) s = Some m ->
  exists t, replace_typed_matrix d m = Some t.
Proof.
  intros Hm; unfold typed_matrix_pattern in Hm; groups_of Hm m; split_match Hm.
  unfold replace_typed_matrix, group; cbn [m_groups lookup Nat.eqb].
  match goal with |- context [map strip ?l] => destruct (map strip l) as [|row rows] end;
    [eauto|].
  cbn [map max_of nth_error length].
  repeat match goal with |- context [if ?b then _ else _] => destruct b end; eauto.
Qed.

Lemma process_matrices_total text : exists t, _process_matrices text = Some t.
Proof.
  unfold _process_matrices.
  destruct (@sub_total _ _ (@replace_matrix_total) text) as [t0 ->].
  change matrix_types with
    [ (u "pmatrix", u "круглые скобки"); (u "bmatrix", u "квадратные скобки");
      (u "vmatrix", u "вертикальные черты");
      (u "Vmatrix", u "двойные вертикальные черты") ].
  cbn [fold_left fst snd].
  repeat match goal with
         | |- context [sub (typed_matrix_pattern ?ty) (replace_typed_matrix ?d) ?x] =>
             destruct (@sub_total _ _
                         (fun prev s m => @replace_typed_matrix_total prev ty d s m) x)
               as [? ->]
         end.
  eauto.
Qed.

Lemma replace_frac_total prev name s m :
  match_at prev (frac_like_pattern name) s = Some m ->
  exists t, replace_frac m = Some t.
Proof.
  intros Hm; unfold frac_like_pattern in Hm; groups_of Hm m; split_match Hm.
  unfold replace_frac, group; cbn [m_groups lookup Nat.eqb]; eauto.
Qed.

Lemma process_fractions_total text : exists t, _process_fractions text = Some t.
Proof.
  unfold _process_fractions, frac_pattern, dfrac_pattern, cfrac_pattern.
  repeat match goal with
         | |- context [sub (frac_like_pattern ?n) replace_frac ?x] =>
             destruct (@sub_total _ _
                         (fun prev s m => @replace_frac_total prev n s m) x)
               as [? ->]
         end.
  eauto.
Qed.

Lemma replace_sqrt_total prev s m :
  match_at prev sqrt_pattern s = Some m -> exists t, replace_sqrt m = Some t.
Proof.
  intros Hm; unfold sqrt_pattern in Hm; groups_of Hm m; split_match Hm.
  unfold replace_sqrt, group; cbn [m_groups lookup Nat.eqb]; eauto.
Qed.

Lemma replace_nsqrt_total prev s m :
  match_at prev nsqrt_pattern s = Some m -> exists t, replace_nsqrt m = Some t.
Proof.
  intros Hm; unfold nsqrt_pattern in Hm; groups_of Hm m; split_match Hm.
  unfold replace_nsqrt, group; cbn [m_groups lookup Nat.eqb]; eauto.
Qed.

Lemma process_square_roots_total text :
  exists t, _process_square_roots text = Some t.
Proof.
  unfold _process_square_roots.
  destruct (@sub_total _ _ (@replace_sqrt_total) text) as [t0 ->].
  destruct (@sub_total _ _ (@replace_nsqrt_total) t0) as [t1 ->].
  eauto.
Qed.

(** The callback of the exponent stage reads group 3 only when group 2 is
    absent, and then group 3 took part. *)
Lemma replace_superscript_total prev s m :
  match_at prev superscript_pattern s = Some m ->
  exists t, replace_superscript m = Some t.
Proof.
  intros Hm; unfold superscript_pattern in Hm; groups_of Hm m.
  cbn [matches] in Hm.
  destruct Hm as (x1 & x2 & g1 & -> & [-> ->] & g2 & [Hb|Hb] & ->).
  - split_match Hb.
    unfold replace_superscript, group; cbn [m_groups lookup Nat.eqb].
    match goal with H : 1 <= length ?x |- _ => destruct x; [simpl in H; lia|] end.
    eauto.
  - split_match Hb.
    unfold replace_superscript, group; cbn [m_groups lookup Nat.eqb]; eauto.
Qed.

Lemma process_superscripts_total text :
  exists t, _process_superscripts text = Some t.
Proof. apply sub_total, @replace_superscript_total. Qed.

Ltac callback_total pat repl :=
  let Hm := fresh "Hm" in
  intros Hm; unfold pat in Hm;
  match type of Hm with match_at _ _ _ = Some ?m => groups_of Hm m end;
  split_match Hm;
  unfold repl, group; cbn [m_groups lookup Nat.eqb]; eauto.

Lemma replace_func_single_total prev s m :
  match_at prev func_single_pattern s = Some m ->
  exists t, replace_func_single m = Some t.
Proof. callback_total func_single_pattern replace_func_single. Qed.

Lemma replace_func_complex_total prev s m :
  match_at prev func_complex_pattern s = Some m ->
  exists t, replace_func_complex m = Some t.
Proof. callback_total func_complex_pattern replace_func_complex. Qed.

Lemma replace_single_var_total prev s m :
  match_at prev single_var_pattern s = Some m ->
  exists t, replace_single_var m = Some t.
Proof. callback_total single_var_pattern replace_single_var. Qed.

Lemma replace_var_minus_total prev s m :
  match_at prev var_minus_pattern s = Some m ->
  exists t, replace_var_minus m = Some t.
Proof. callback_total var_minus_pattern replace_var_minus. Qed.

Lemma replace_complex_paren_total prev s m :
  match_at prev complex_paren_pattern s = Some m ->
  exists t, replace_complex_paren m = Some t.
Proof. callback_total complex_paren_pattern replace_complex_paren. Qed.

Lemma process_parentheses_total text :
  exists t, _process_parentheses text = Some t.
Proof.
  unfold _process_parentheses.
  destruct (@sub_total _ _ (@replace_func_single_total) text) as [t0 ->].
  destruct (@sub_total _ _ (@replace_func_complex_total) t0) as [t1 ->].
  destruct (@sub_total _ _ (@replace_single_var_total) t1) as [t2 ->].
  destruct (@sub_total _ _ (@replace_var_minus_total) t2) as [t3 ->].
  destruct (@sub_total _ _ (@replace_complex_paren_total) t3) as [t4 ->].
  eauto.
Qed.

Lemma process_common_commands_total text :
  exists t, _process_common_commands text = Some t.
Proof.
  unfold _process_common_commands. apply sub_total.
  intros; unfold template_1; eauto.
Qed.

Lemma normalise_total text :
  exists t, sub whitespace_pattern (const_repl (u " ")) text = Some t.
Proof. apply sub_total. intros; unfold const_repl; eauto. Qed.

(** C1. [latex_to_text] is total: for every input string it returns a
    string and no operation inside it raises; on the empty string the guard
    returns the empty string before any stage is consulted. *)
Theorem latex_to_text_total :
  (forall latex_code, exists text, latex_to_text latex_code = Some text)
  /\ latex_to_text [] = Some [].
Proof.
  split; [|reflexivity].
  intros latex_code; unfold latex_to_text.
  destruct (negb (truthy latex_code)); [eauto|].
  destruct (process_matrices_total (strip latex_code)) as [t1 ->].
  destruct (process_fractions_total t1) as [t2 ->].
  destruct (process_square_roots_total t2) as [t3 ->].
  destruct (process_superscripts_total t3) as [t4 ->].
  destruct (process_parentheses_total t4) as [t5 ->].
  destruct (process_common_commands_total (_process_math_symbols t5)) as [t6 ->].
  destruct (normalise_total
              (_process_special_symbols (_process_greek_letters t6))) as [t7 ->].
  eauto.
Qed.

(* ================================================================== *)
(** ** Strings: trimming, cutting, counting *)

Lemma lstrip_head c t s : lstrip s = c :: t -> isspace c = false.
Proof.
  induction s as [|x s IH]; simpl; [discriminate|].
  destruct (isspace x) eqn:Hx; [exact IH|].
  intros [= <- <-]; assumption.
Qed.

Lemma lstrip_nonspace c s : isspace c = false -> lstrip (c :: s) = c :: s.
Proof. intros H; simpl; now rewrite H. Qed.

Lemma lstrip_idem s : lstrip (lstrip s) = lstrip s.
Proof.
  induction s as [|x s IH]; simpl; [reflexivity|].
  destruct (isspace x) eqn:Hx; [exact IH|].
  now apply lstrip_nonspace.
Qed.

Lemma lstrip_snoc r c : isspace c = false -> lstrip (r ++ [c]) = lstrip r ++ [c].
Proof.
  intros Hc; induction r as [|x r IH]; simpl.
  - now rewrite Hc.
  - destruct (isspace x); [exact IH|reflexivity].
Qed.

Lemma rstrip_idem s : rstrip (rstrip s) = rstrip s.
Proof. unfold rstrip. now rewrite rev_involutive, lstrip_idem. Qed.

Lemma rstrip_cons c s : isspace c = false -> rstrip (c :: s) = c :: rstrip s.
Proof.
  intros Hc; unfold rstrip; simpl.
  now rewrite lstrip_snoc, rev_app_distr.
Qed.

(** A trimmed string is empty or begins with a character that is not a
    blank, followed by a right-trimmed tail. *)
Lemma strip_shape s :
  strip s = [] \/ exists c t, isspace c = false /\ strip s = c :: rstrip t.
Proof.
  unfold strip. destruct (lstrip s) as [|c t] eqn:Hs.
  - left; reflexivity.
  - right. exists c, t. pose proof (lstrip_head _ Hs) as Hc.
    split; [assumption|]. now apply rstrip_cons.
Qed.

(** Trimming twice is trimming once. *)
Lemma strip_idem s : strip (strip s) = strip s.
Proof.
  destruct (strip_shape s) as [->|(c & t & Hc & ->)]; [reflexivity|].
  unfold strip at 1. rewrite lstrip_nonspace by assumption.
  now rewrite rstrip_cons, rstrip_idem.
Qed.

Lemma split_go_nonempty sep s : forall skip cur, 1 <= length (split_go sep skip cur s).
Proof.
  induction s as [|c s IH]; intros skip cur; simpl; [lia|].
  destruct skip; [|apply IH].
  destruct (startswith sep (c :: s)); simpl; [lia|apply IH].
Qed.

(** Every row has at least one cell. *)
Lemma cells_nonempty row : 1 <= length (cells row).
Proof. unfold cells. rewrite length_map. apply split_go_nonempty. Qed.

Lemma fold_left_max xs : forall x, fold_left Nat.max xs x = Nat.max x (list_max xs).
Proof.
  induction xs as [|y xs IH]; intros x; simpl; [lia|].
  rewrite IH; lia.
Qed.

Lemma max_of_list_max x xs : max_of (x :: xs) = Some (list_max (x :: xs)).
Proof. simpl. now rewrite fold_left_max. Qed.

(** The accumulating loop [result += f(item)] appends the pieces in order. *)
Lemma fold_left_append (A : Type) (f : A -> str) (items : list A) :
  forall init, fold_left (fun result x => result ++ f x) items init
               = init ++ concat (map f items).
Proof.
  induction items as [|x items IH]; intros init; simpl.
  - now rewrite app_nil_r.
  - now rewrite IH, app_assoc.
Qed.

(** With at least one cell in every row, the widest row has one cell
    exactly when every row has one. *)
Lemma list_max_one (rows : list str) :
  rows <> [] ->
  (list_max (map (fun row => length (cells row)) rows) =? 1)
  = forallb (fun row => length (cells row) =? 1) rows.
Proof.
  induction rows as [|r rows IH]; [congruence|intros _].
  destruct rows as [|r' rows].
  - simpl. rewrite Nat.max_0_r, andb_true_r; reflexivity.
  - specialize (IH ltac:(discriminate)).
    change (list_max (map _ (r :: ?l))) with
      (Nat.max (length (cells r)) (list_max (map (fun row => length (cells row)) l))).
    cbn [forallb] in *. rewrite <- IH.
    pose proof (cells_nonempty r) as H1.
    assert (H2 : 1 <= list_max (map (fun row => length (cells row)) (r' :: rows))).
    { simpl. pose proof (cells_nonempty r'). lia. }
    set (a := length (cells r)) in *.
    set (M := list_max (map (fun row => length (cells row)) (r' :: rows))) in *.
    destruct (Nat.eqb_spec (Nat.max a M) 1), (Nat.eqb_spec a 1), (Nat.eqb_spec M 1);
      simpl; try reflexivity; lia.
Qed.

Lemma matrix_rows_stripped body : Forall (fun row => strip row = row) (matrix_rows body).
Proof.
  unfold matrix_rows. apply Forall_map, Forall_forall; intros; apply strip_idem.
Qed.

Lemma map_strip_rows body : map strip (matrix_rows body) = matrix_rows body.
Proof.
  pose proof (matrix_rows_stripped body) as H.
  induction H as [|r rows Hr _ IH]; simpl; congruence.
Qed.

(* ================================================================== *)
(** ** Matrix narration *)

Lemma cell_counts rows :
  map (fun row => length (split (u "&") row)) rows
  = map (fun row => length (cells row)) rows.
Proof. apply map_ext; intros; unfold cells; now rewrite length_map. Qed.

(** Both callbacks have the same shape; the proof that they follow the
    specification's narration goes by the number of rows. *)
(** Brings a string expression to the canonical right-nested form. *)
Ltac str_norm := repeat (progress (rewrite <- ?app_assoc; cbn [app])).

Ltac narration_cases body :=
  cbn [m_groups lookup Nat.eqb]; cbv zeta;
  change (map strip (filter _ (split _ (strip body)))) with (matrix_rows body);
  let Hs := fresh "Hs" in
  pose proof (map_strip_rows body) as Hs;
  let r1 := fresh "r1" in
  let r2 := fresh "r2" in
  let rows := fresh "rows" in
  destruct (matrix_rows body) as [|r1 [|r2 rows]];
  [ reflexivity
  | rewrite cell_counts; cbn [map]; rewrite max_of_list_max; unfold spec_narration;
    cbn [map length Nat.eqb andb nth_error list_max fold_right];
    rewrite Nat.max_0_r;
    destruct (1 <? length (cells r1));
    [ unfold style_of, cells; str_norm; reflexivity
    | rewrite andb_false_r, fold_left_append;
      unfold matrix_phrase, style_of, row_phrase, cells;
      cbn [map list_max fold_right length]; rewrite Nat.max_0_r;
      str_norm; reflexivity ]
  | rewrite cell_counts; cbn [map]; rewrite max_of_list_max; unfold spec_narration;
    rewrite <- list_max_one by discriminate;
    unfold matrix_phrase;
    cbn [map length Nat.eqb andb];
    replace (1 <? S (S (length rows))) with true
      by (symmetry; apply Nat.ltb_lt; lia);
    rewrite andb_true_r;
    match goal with
    | |- context [list_max ?l =? 1] => destruct (list_max l =? 1)
    end;
    [ cbn [map] in Hs; rewrite Hs, length_map; unfold style_of; str_norm;
      reflexivity
    | rewrite fold_left_append; unfold style_of, row_phrase, cells;
      str_norm; reflexivity ] ].

Lemma replace_matrix_spec txt body :
  replace_matrix (mkMatch txt [(1, body)])
  = Some (spec_narration [] (matrix_rows body)).
Proof. unfold replace_matrix, group. narration_cases body. Qed.

Lemma replace_typed_matrix_spec description txt body :
  replace_typed_matrix description (mkMatch txt [(1, body)])
  = Some (spec_narration (style_of description) (matrix_rows body)).
Proof. unfold replace_typed_matrix, group. narration_cases body. Qed.




(* ================================================================== *)
(** ** Row breaks and blank rows *)







(* ================================================================== *)
(** ** Running the matcher on a text of known shape *)

Section MatcherRuns.

Variable R : Type.

(** A greedy repetition in front of a character outside its class takes
    the whole run when the rest of the pattern then succeeds. *)
Lemma rep_greedy_run p (k : str -> str -> option R) s res :
  match s with [] => True | c :: _ => p c = false end ->
  forall X min acc,
    forallb p X = true -> min <= length X ->
    k (rev X ++ acc) s = Some res ->
    rep_greedy p min k acc (X ++ s) = Some res.
Proof.
  intros Hs; induction X as [|x X IH]; intros min acc HX Hmin Hk.
  - simpl in Hmin; assert (min = 0) by lia; subst min.
    destruct s as [|c s]; simpl in *; [assumption|now rewrite Hs].
  - simpl in HX. apply andb_prop in HX. destruct HX as [Hx HX].
    cbn [app rep_greedy]. rewrite Hx.
    rewrite (IH (pred min) (x :: acc)); [reflexivity|assumption|simpl in Hmin; lia|].
    simpl in Hk. now rewrite <- app_assoc in Hk.
Qed.

End MatcherRuns.

(** The text a group captures. *)
Lemma capture_text (x acc : str) :
  rev (firstn (length (rev x ++ acc) - length acc) (rev x ++ acc)) = x.
Proof.
  rewrite length_app, Nat.add_sub, firstn_app, Nat.sub_diag, firstn_all.
  simpl. now rewrite app_nil_r, rev_involutive.
Qed.

Lemma capture_at (x acc acc' : str) :
  acc' = rev x ++ acc ->
  rev (firstn (length acc' - length acc) acc') = x.
Proof. intros ->. apply capture_text. Qed.

Lemma forallb_is_not c X : ~ In c X -> forallb (is_not c) X = true.
Proof.
  induction X as [|x X IH]; simpl; [reflexivity|intros H].
  unfold is_not at 1. destruct (N.eqb_spec x c) as [->|_]; [tauto|].
  simpl; apply IH; tauto.
Qed.

(** After a match the scan passes over the matched text. *)
Lemma sub_go_skip r repl :
  forall a prev s,
    sub_go r repl prev (length a) (a ++ s)
    = sub_go r repl (behind prev (rev a)) 0 s.
Proof.
  induction a as [|c a IH]; intros prev s; simpl.
  - destruct s; reflexivity.
  - rewrite IH. f_equal.
    unfold behind. destruct (rev a) eqn:E; simpl; reflexivity.
Qed.

Lemma sub_go_at_match r repl prev c t rest m out :
  match_at prev r (c :: t ++ rest) = Some m ->
  m_text m = c :: t ->
  repl m = Some out ->
  sub_go r repl prev 0 (c :: t ++ rest)
  = match sub_go r repl (behind (Some c) (rev t)) 0 rest with
    | Some tail => Some (out ++ tail)
    | None => None
    end.
Proof.
  intros Hm Ht Hout. cbn [sub_go]. rewrite Hm, Ht, Hout.
  now rewrite sub_go_skip.
Qed.

Lemma strip_prefix_none l s : startswith l s = false -> strip_prefix l s = None.
Proof.
  revert s; induction l as [|x l IH]; intros [|y s]; simpl; try congruence.
  destruct (x =? y)%N; simpl; auto.
Qed.

(** A pattern that opens with a literal leaves a text without that literal
    unchanged. *)
Lemma sub_go_absent l r' repl :
  forall s prev,
    contains l s = false -> sub_go (Lit l ;; r') repl prev 0 s = Some s.
Proof.
  induction s as [|c s IH]; intros prev H; [reflexivity|].
  cbn [contains] in H. apply orb_false_elim in H. destruct H as [H1 H2].
  cbn [sub_go]. unfold match_at. cbn [rmatch].
  rewrite (strip_prefix_none _ _ H1).
  now rewrite IH.
Qed.

Lemma sub_absent l r' repl s :
  contains l s = false -> sub (Lit l ;; r') repl s = Some s.
Proof. apply sub_go_absent. Qed.

Lemma startswith_absent_char l d s :
  In d l -> ~ In d s -> startswith l s = false.
Proof.
  revert s; induction l as [|x l IH]; intros s Hl Hs; [destruct Hl|].
  destruct s as [|y s]; [reflexivity|]. simpl.
  destruct (N.eqb_spec x y) as [->|_]; [|reflexivity]. simpl.
  apply IH; [|simpl in Hs; tauto].
  destruct Hl as [->|Hl]; [simpl in Hs; tauto|assumption].
Qed.

Lemma contains_absent_char l d s :
  In d l -> ~ In d s -> contains l s = false.
Proof.
  intros Hl; induction s as [|y s IH]; intros Hs.
  - simpl. rewrite (startswith_absent_char l d); auto.
  - cbn [contains]. rewrite (startswith_absent_char l d) by assumption.
    simpl. apply IH. simpl in Hs; tauto.
Qed.

(** A literal cannot begin inside [A] when one of its characters is missing
    from [A] and [A] is followed by a character the literal does not have. *)
Lemma startswith_blocked l d c :
  In d l -> ~ In c l ->
  forall A B, ~ In d A -> startswith l (A ++ c :: B) = false.
Proof.
  induction l as [|x l IH]; intros Hd Hc A B HA; [destruct Hd|].
  destruct A as [|a A]; simpl.
  - destruct (N.eqb_spec x c) as [->|_]; [simpl in Hc; tauto|reflexivity].
  - destruct (N.eqb_spec x a) as [->|_]; [|reflexivity]. simpl.
    apply IH; simpl in *; tauto.
Qed.

Lemma contains_blocked l d c :
  In d l -> ~ In c l ->
  forall A B, ~ In d A -> contains l B = false ->
              contains l (A ++ c :: B) = false.
Proof.
  intros Hd Hc; induction A as [|a A IH]; intros B HA HB.
  - cbn [app contains]. rewrite HB, orb_false_r.
    apply (startswith_blocked l d c Hd Hc [] B); auto.
  - change ((a :: A) ++ c :: B) with (a :: (A ++ c :: B)).
    cbn [contains]. rewrite IH by (simpl in HA; tauto).
    rewrite orb_false_r.
    apply (startswith_blocked l d c Hd Hc (a :: A) B HA).
Qed.

Lemma In_lstrip c s : In c (lstrip s) -> In c s.
Proof.
  induction s as [|x s IH]; simpl; [tauto|].
  destruct (isspace x); simpl; tauto.
Qed.

Lemma In_strip c s : In c (strip s) -> In c s.
Proof.
  unfold strip, rstrip. intros H.
  apply In_lstrip. apply in_rev. apply In_lstrip. now apply in_rev in H.
Qed.

Lemma not_In_by_eval (c : char) l : existsb (N.eqb c) l = false -> ~ In c l.
Proof.
  intros H Hin. assert (E : existsb (N.eqb c) l = true); [|congruence].
  apply existsb_exists. exists c. split; [assumption|apply N.eqb_refl].
Qed.

Lemma sub_go_whole r repl prev c t m out :
  match_at prev r (c :: t) = Some m ->
  m_text m = c :: t ->
  repl m = Some out ->
  sub_go r repl prev 0 (c :: t) = Some out.
Proof.
  intros Hm Ht Hout.
  rewrite <- (app_nil_r t) in Hm |- *.
  erewrite sub_go_at_match by eassumption. cbn [sub_go].
  now rewrite app_nil_r.
Qed.

(* ================================================================== *)
(** ** Fractions *)




Lemma contains_cons l c s :
  startswith l (c :: s) = false -> contains l (c :: s) = contains l s.
Proof. intros H. cbn [contains]. now rewrite H. Qed.





(* ================================================================== *)
(** ** Exponents *)

(** Before the first character of its opening literal, a pattern copies
    the text. *)
Lemma sub_go_prefix c0 l r' repl :
  forall pre prev s,
    ~ In c0 pre ->
    sub_go (Lit (c0 :: l) ;; r') repl prev 0 (pre ++ s)
    = match sub_go (Lit (c0 :: l) ;; r') repl (behind prev (rev pre)) 0 s with
      | Some t => Some (pre ++ t)
      | None => None
      end.
Proof.
  induction pre as [|x pre IH]; intros prev s Hpre.
  - simpl. destruct (sub_go _ _ _ _ _); reflexivity.
  - cbn [app sub_go]. unfold match_at. cbn [rmatch strip_prefix].
    destruct (N.eqb_spec c0 x) as [->|_]; [simpl in Hpre; tauto|].
    rewrite IH by (simpl in Hpre; tauto).
    replace (behind (Some x) (rev pre)) with (behind prev (rev (x :: pre))).
    + destruct (sub_go _ _ _ _ _); reflexivity.
    + unfold behind. cbn [rev]. destruct (rev pre); reflexivity.
Qed.

Lemma alnum_range c : alnum c = true -> (48 <= c <= 122)%N.
Proof.
  unfold alnum, alpha. intros H.
  rewrite ?orb_true_iff, ?andb_true_iff, ?N.leb_le in H. lia.
Qed.

Lemma isspace_range c : isspace c = true -> (c <= 32 \/ 133 <= c)%N.
Proof.
  unfold isspace. intros H.
  rewrite ?orb_true_iff, ?andb_true_iff, ?N.leb_le, ?N.eqb_eq in H. lia.
Qed.

Lemma alnum_not_space c : alnum c = true -> isspace c = false.
Proof.
  intros H. apply alnum_range in H.
  destruct (isspace c) eqn:E; [|reflexivity].
  apply isspace_range in E. lia.
Qed.

Lemma alnum_not_brace c : alnum c = true -> (chr "{" =? c)%N = false.
Proof.
  intros H. apply alnum_range in H. apply N.eqb_neq. lia.
Qed.

Lemma lstrip_no_space s : forallb (fun c => negb (isspace c)) s = true -> lstrip s = s.
Proof.
  destruct s as [|c s]; [reflexivity|]. simpl. intros H.
  apply andb_prop in H. destruct H as [H _]. apply negb_true_iff in H.
  now rewrite H.
Qed.

(** A text without blanks is its own trimmed form. *)
Lemma strip_no_space s : forallb (fun c => negb (isspace c)) s = true -> strip s = s.
Proof.
  intros H. unfold strip, rstrip. rewrite (lstrip_no_space s H).
  rewrite lstrip_no_space; [apply rev_involutive|].
  rewrite forallb_forall in *. intros c Hc. apply H. now apply in_rev.
Qed.

Lemma strip_alnum P : forallb alnum P = true -> strip P = P.
Proof.
  intros H. apply strip_no_space. rewrite forallb_forall in *.
  intros c Hc. apply negb_true_iff, alnum_not_space, H, Hc.
Qed.

Lemma superscript_match_braces prev P rest :
  P <> [] -> ~ In (chr "}") P ->
  match_at prev superscript_pattern (u "^{" ++ P ++ u "}" ++ rest)
  = Some (mkMatch (u "^{" ++ P ++ u "}") [(1, u "{" ++ P ++ u "}"); (2, P)]).
Proof.
  intros HP HPb. unfold match_at, superscript_pattern.
  cbn [rmatch app strip_prefix N.eqb Pos.eqb].
  rewrite (@rep_greedy_run _ (is_not (chr "}")) _ (u "}" ++ rest)
             (mkMatch (u "^{" ++ P ++ u "}") [(1, u "{" ++ P ++ u "}"); (2, P)])).
  - reflexivity.
  - reflexivity.
  - now apply forallb_is_not.
  - destruct P; [congruence|simpl; lia].
  - rewrite capture_text.
    cbn [rmatch app strip_prefix N.eqb Pos.eqb].
    rewrite (@capture_at (u "{" ++ P ++ u "}") (rev (u "^") ++ []))
      by (cbn [rev app]; rewrite rev_app_distr; cbn [rev app];
          rewrite <- ?app_assoc; reflexivity).
    rewrite app_nil_r, !rev_app_distr, !rev_involutive, <- !app_assoc.
    reflexivity.
Qed.

Lemma superscript_match_token prev P rest :
  P <> [] -> forallb alnum P = true ->
  match rest with [] => True | c :: _ => alnum c = false end ->
  match_at prev superscript_pattern (u "^" ++ P ++ rest)
  = Some (mkMatch (u "^" ++ P) [(1, P); (3, P)]).
Proof.
  intros HP HPa Hrest. unfold match_at, superscript_pattern.
  destruct P as [|c P]; [congruence|].
  cbn [rmatch]. rewrite strip_prefix_app. cbn [app strip_prefix].
  pose proof HPa as Hc. cbn [forallb] in Hc. apply andb_prop in Hc.
  destruct Hc as [Hc _].
  rewrite (alnum_not_brace c Hc).
  change (c :: P ++ rest) with ((c :: P) ++ rest).
  rewrite (@rep_greedy_run _ alnum _ rest
             (mkMatch (u "^" ++ c :: P) [(1, c :: P); (3, c :: P)])).
  - reflexivity.
  - assumption.
  - assumption.
  - simpl; lia.
  - rewrite capture_text, app_nil_r, rev_app_distr, !rev_involutive.
    reflexivity.
Qed.

Lemma sub_superscript_prefix pre prev s :
  ~ In (chr "^") pre ->
  sub_go superscript_pattern replace_superscript prev 0 (pre ++ s)
  = match sub_go superscript_pattern replace_superscript
            (behind prev (rev pre)) 0 s with
    | Some t => Some (pre ++ t)
    | None => None
    end.
Proof. apply sub_go_prefix. Qed.

(* ================================================================== *)
(** ** Parentheses *)

(** C3. On "f(x) = g(x-1)" the one-variable rule rewrites "f(x)" and leaves
    "g(x-1)" alone; the compound rule, whose argument has three characters,
    then rewrites "g(x-1)"; the operator stage expands the hyphen inside,
    and no hyphen is left in the result. *)
Theorem function_application_example :
  sub func_single_pattern replace_func_single (u "f(x) = g(x-1)")
  = Some (u "f от x = g(x-1)")
  /\ sub func_complex_pattern replace_func_complex (u "f от x = g(x-1)")
     = Some (u "f от x = g скобка открывается x-1 скобка закрывается")
  /\ 2 <= length (u "x-1")
  /\ _process_parentheses (u "f(x) = g(x-1)")
     = Some (u "f от x = g скобка открывается x-1 скобка закрывается")
  /\ _process_math_symbols
       (u "f от x = g скобка открывается x-1 скобка закрывается")
     = u "f от x  равно  g скобка открывается x минус 1 скобка закрывается"
  /\ latex_to_text (u "f(x) = g(x-1)")
     = Some (u "f от x равно g скобка открывается x минус 1 скобка закрывается")
  /\ contains (u "-")
       (u "f от x равно g скобка открывается x минус 1 скобка закрывается")
     = false.
Proof. repeat split; vm_compute; try reflexivity; lia. Qed.

(* ================================================================== *)
(** ** The substitution tables *)

Lemma str_eqb_eq a : forall b, str_eqb a b = true -> a = b.
Proof.
  induction a as [|x a IH]; intros [|y b]; simpl; try congruence.
  intros H. apply andb_prop in H. destruct H as [Hx Hab].
  apply N.eqb_eq in Hx. f_equal; auto.
Qed.

Lemma opt_str_eqb_eq a b : opt_str_eqb a b = true -> a = b.
Proof.
  destruct a, b; simpl; try congruence.
  intros H. f_equal. now apply str_eqb_eq.
Qed.

Lemma Forall_by_eval (A : Type) (P : A -> Prop) (f : A -> bool) (l : list A) :
  (forall x, f x = true -> P x) -> forallb f l = true -> Forall P l.
Proof.
  intros Hf H. apply Forall_forall. intros x Hx.
  apply Hf. rewrite forallb_forall in H. auto.
Qed.

(** C4, on the code as it is: each styling command consumes its opening
    brace together with the command name, so the closing brace of the group
    has no partner and stays in the output. *)
Theorem styling_command_leaves_brace :
  Forall (fun command =>
            latex_to_text (fst command ++ u "v}") = Some (u "v}"))
         styling_commands
  /\ latex_to_text (u "\vec{v}") = Some (u "v}")
  /\ contains (u "}") (u "v}") = true.
Proof.
  split; [|split; vm_compute; reflexivity].
  apply Forall_by_eval
    with (f := fun command =>
                 opt_str_eqb (latex_to_text (fst command ++ u "v}")) (Some (u "v}"))).
  - intros x. apply opt_str_eqb_eq.
  - vm_compute; reflexivity.
Qed.

(** C5, on the code as it is: the phrase for the up-down arrow carries a
    hyphen, which a second run reads as a minus sign; on every other
    trigger of the tables a second run changes nothing. *)
Theorem second_run_on_triggers :
  latex_to_text (u "\updownarrow") = Some (u "стрелка вверх-вниз")
  /\ twice (u "\updownarrow") = Some (u "стрелка вверх минус вниз")
  /\ ~ stable (u "\updownarrow")
  /\ Forall (fun k => k = u "\updownarrow" \/ stable k) table_keys.
Proof.
  split; [vm_compute; reflexivity|].
  split; [vm_compute; reflexivity|].
  split.
  - unfold stable. vm_compute. discriminate.
  - apply Forall_by_eval
      with (f := fun k => str_eqb k (u "\updownarrow") || stableb k).
    + intros k H. apply orb_prop in H. destruct H as [H|H].
      * left. now apply str_eqb_eq.
      * right. now apply opt_str_eqb_eq.
    + vm_compute; reflexivity.
Qed.

(** C6, on the code as it is: "\subseteq" and "\supseteq" are consumed by
    the shorter triggers "\subset" and "\supset" that the table lists
    before them, and "\lnot" by the "\ln" of the operator stage; every
    other trigger of the special-symbols table yields its phrase. *)
Theorem special_symbols_announced :
  latex_to_text (u "\subseteq") = Some (u "подмножество eq")
  /\ latex_to_text (u "\supseteq") = Some (u "надмножество eq")
  /\ latex_to_text (u "\lnot") = Some (u "натуральный логарифм ot")
  /\ dict_get SpecialSymbols.symbols (u "\subseteq")
     = Some (u " подмножество или равно ")
  /\ dict_get SpecialSymbols.symbols (u "\supseteq")
     = Some (u " надмножество или равно ")
  /\ dict_get SpecialSymbols.symbols (u "\lnot") = Some (u " не ")
  /\ Forall (fun kv =>
               In (fst kv) [u "\subseteq"; u "\supseteq"; u "\lnot"]
               \/ announces kv)
            SpecialSymbols.symbols.
Proof.
  repeat (split; [vm_compute; reflexivity|]).
  apply Forall_by_eval
    with (f := fun kv =>
                 existsb (str_eqb (fst kv)) [u "\subseteq"; u "\supseteq"; u "\lnot"]
                 || announcesb kv).
  - intros kv H. apply orb_prop in H. destruct H as [H|H].
    + left. apply existsb_exists in H. destruct H as (k & Hk & E).
      apply str_eqb_eq in E. now subst.
    + right. now apply opt_str_eqb_eq.
  - vm_compute; reflexivity.
Qed.

(** C7. The two triggers the special-symbols literal lists twice keep their
    first position and take the phrase written last: the double right arrow
    is announced as "therefore" and the double two-way arrow as "if and
    only if". *)
Theorem duplicate_keys_last_wins :
  latex_to_text (u "\Rightarrow") = Some (u "следовательно")
  /\ latex_to_text (u "\Rightarrow") <> Some (u "двойная стрелка вправо")
  /\ latex_to_text (u "\Leftrightarrow") = Some (u "тогда и только тогда")
  /\ latex_to_text (u "\Leftrightarrow")
     <> Some (u "двойная стрелка в обе стороны")
  /\ dict_get SpecialSymbols.symbols (u "\Rightarrow") = Some (u " следовательно ")
  /\ dict_get SpecialSymbols.symbols (u "\Leftrightarrow")
     = Some (u " тогда и только тогда ")
  /\ length SpecialSymbols.entries = 29
  /\ length SpecialSymbols.symbols = 27
  /\ nth_error SpecialSymbols.symbols 3
     = Some (u "\Rightarrow", u " следовательно ")
  /\ nth_error SpecialSymbols.symbols 5
     = Some (u "\Leftrightarrow", u " тогда и только тогда ").
Proof. repeat split; vm_compute; try reflexivity; discriminate. Qed.

(* ================================================================== *)
(** ** Patterns need their characters *)

(** A pattern whose every match holds the character [c] leaves a text
    without [c] unchanged. *)
Lemma sub_go_needs c r repl :
  (forall prev t m, match_at prev r t = Some m -> In c (m_text m)) ->
  forall s prev, ~ In c s -> sub_go r repl prev 0 s = Some s.
Proof.
  intros Hneeds; induction s as [|a s IH]; intros prev Hs; [reflexivity|].
  cbn [sub_go].
  destruct (match_at prev r (a :: s)) as [m|] eqn:Hm.
  - exfalso. pose proof (Hneeds _ _ _ Hm) as Hin.
    apply match_at_sound in Hm. destruct Hm as (s' & E & _).
    apply Hs. rewrite E. apply in_or_app; now left.
  - rewrite IH by (simpl in Hs; tauto). reflexivity.
Qed.

Lemma sub_needs c r repl s :
  (forall prev t m, match_at prev r t = Some m -> In c (m_text m)) ->
  ~ In c s -> sub r repl s = Some s.
Proof. intros H Hs. now apply sub_go_needs with (c := c). Qed.

(** Reads the needed character off a declarative match of a concrete
    pattern. *)
Ltac needs_char pat :=
  let prev := fresh "prev" in
  let t := fresh "t" in
  let m := fresh "m" in
  let Hm := fresh "Hm" in
  intros prev t m Hm; unfold pat in Hm;
  apply match_at_sound in Hm;
  let s' := fresh "s'" in
  let E := fresh "E" in
  destruct Hm as (s' & E & Hm);
  destruct m as [txt gs]; cbn [m_text m_groups] in *;
  split_match Hm;
  repeat (rewrite in_app_iff); cbn [In]; tauto.

Lemma matrix_needs_backslash :
  forall prev t m, match_at prev matrix_pattern t = Some m -> In (chr "\") (m_text m).
Proof. needs_char matrix_pattern. Qed.

Lemma typed_matrix_needs_backslash ty :
  forall prev t m,
    match_at prev (typed_matrix_pattern ty) t = Some m -> In (chr "\") (m_text m).
Proof. needs_char typed_matrix_pattern. Qed.

Lemma frac_needs_backslash c name :
  forall prev t m,
    match_at prev (frac_like_pattern (c :: name)) t = Some m -> In c (m_text m).
Proof. needs_char frac_like_pattern. Qed.

Lemma sqrt_needs_backslash :
  forall prev t m, match_at prev sqrt_pattern t = Some m -> In (chr "\") (m_text m).
Proof. needs_char sqrt_pattern. Qed.

Lemma nsqrt_needs_backslash :
  forall prev t m, match_at prev nsqrt_pattern t = Some m -> In (chr "\") (m_text m).
Proof. needs_char nsqrt_pattern. Qed.

Lemma nsqrt_needs_brace :
  forall prev t m, match_at prev nsqrt_pattern t = Some m -> In (chr "}") (m_text m).
Proof. needs_char nsqrt_pattern. Qed.

Lemma superscript_needs_caret :
  forall prev t m,
    match_at prev superscript_pattern t = Some m -> In (chr "^") (m_text m).
Proof. needs_char superscript_pattern. Qed.

Lemma func_single_needs_paren :
  forall prev t m,
    match_at prev func_single_pattern t = Some m -> In (chr "(") (m_text m).
Proof. needs_char func_single_pattern. Qed.

Lemma func_complex_needs_paren :
  forall prev t m,
    match_at prev func_complex_pattern t = Some m -> In (chr "(") (m_text m).
Proof. needs_char func_complex_pattern. Qed.

Lemma single_var_needs_paren :
  forall prev t m,
    match_at prev single_var_pattern t = Some m -> In (chr "(") (m_text m).
Proof. needs_char single_var_pattern. Qed.

Lemma var_minus_needs_paren :
  forall prev t m,
    match_at prev var_minus_pattern t = Some m -> In (chr "(") (m_text m).
Proof. needs_char var_minus_pattern. Qed.

Lemma complex_paren_needs_paren :
  forall prev t m,
    match_at prev complex_paren_pattern t = Some m -> In (chr "(") (m_text m).
Proof. needs_char complex_paren_pattern. Qed.

Lemma brace_group_needs_brace :
  forall prev t m,
    match_at prev brace_group_pattern t = Some m -> In (chr "{") (m_text m).
Proof. needs_char brace_group_pattern. Qed.

(* ================================================================== *)
(** ** Roots *)

Lemma sqrt_match prev X rest :
  X <> [] -> ~ In (chr "}") X ->
  match_at prev sqrt_pattern (u "\sqrt{" ++ X ++ u "}" ++ rest)
  = Some (mkMatch (u "\sqrt{" ++ X ++ u "}") [(1, X)]).
Proof.
  intros HX HXb. unfold match_at, sqrt_pattern. cbn [rmatch].
  rewrite strip_prefix_app.
  apply rep_greedy_run.
  - reflexivity.
  - now apply forallb_is_not.
  - destruct X; [congruence|simpl; lia].
  - rewrite capture_text, strip_prefix_app.
    rewrite app_nil_r, !rev_app_distr, !rev_involutive, <- !app_assoc.
    reflexivity.
Qed.

Lemma nsqrt_match prev D X rest :
  D <> [] -> ~ In (chr "]") D -> X <> [] -> ~ In (chr "}") X ->
  match_at prev nsqrt_pattern (u "\sqrt[" ++ D ++ u "]{" ++ X ++ u "}" ++ rest)
  = Some (mkMatch (u "\sqrt[" ++ D ++ u "]{" ++ X ++ u "}") [(2, X); (1, D)]).
Proof.
  intros HD HDb HX HXb. unfold match_at, nsqrt_pattern. cbn [rmatch].
  rewrite strip_prefix_app.
  apply rep_greedy_run.
  - reflexivity.
  - now apply forallb_is_not.
  - destruct D; [congruence|simpl; lia].
  - rewrite capture_text, strip_prefix_app.
    apply rep_greedy_run.
    + reflexivity.
    + now apply forallb_is_not.
    + destruct X; [congruence|simpl; lia].
    + rewrite capture_text, strip_prefix_app.
      rewrite app_nil_r, !rev_app_distr, !rev_involutive, <- !app_assoc.
      reflexivity.
Qed.

Lemma lacks_by_parts (c : char) (a b : str) :
  ~ In c a -> ~ In c b -> ~ In c (a ++ b).
Proof. intros Ha Hb H. apply in_app_or in H. tauto. Qed.

Lemma strip_lacks c s : ~ In c s -> ~ In c (strip s).
Proof. intros H Hin. apply H. now apply In_strip. Qed.

Lemma root_phrase_no_brace X : ~ In (chr "}") X -> ~ In (chr "}") (root_phrase X).
Proof.
  intros HX. unfold root_phrase.
  apply lacks_by_parts; [apply not_In_by_eval; reflexivity|].
  apply lacks_by_parts; [now apply strip_lacks|apply not_In_by_eval; reflexivity].
Qed.

(** A root whose radicand is a non-empty group without a closing brace
    inside is narrated as "inside root X end root", the radicand trimmed;
    the pass for indexed roots then leaves the narration alone. *)
Theorem square_root_narrated X :
  X <> [] -> ~ In (chr "}") X ->
  _process_square_roots (u "\sqrt{" ++ X ++ u "}") = Some (root_phrase X).
Proof.
  intros HX HXb. unfold _process_square_roots, sub.
  pose proof (@sqrt_match None X [] HX HXb) as Hm.
  rewrite app_nil_r in Hm. cbn [app] in Hm |- *.
  erewrite sub_go_whole; [|exact Hm|reflexivity|reflexivity].
  rewrite sub_go_needs with (c := chr "}");
    [reflexivity|exact nsqrt_needs_brace|now apply root_phrase_no_brace].
Qed.

Lemma square_root_narrated_witness :
  _process_square_roots (u "\sqrt{ x+1 }") = Some (u "под корнем x+1 конец корня").
Proof.
  refine (@square_root_narrated (u " x+1 ") _ _).
  - discriminate.
  - apply not_In_by_eval; reflexivity.
Defined.

(** A root with a degree in square brackets is not touched by the pass for
    plain roots and is narrated, degree first, by the pass for indexed
    roots, when degree and radicand are non-empty and hold no brace and the
    degree no closing bracket. *)
Theorem indexed_root_narrated D X :
  D <> [] -> X <> [] ->
  ~ In (chr "]") D ->
  (forall c, In c (D ++ X) -> c <> chr "{" /\ c <> chr "}") ->
  sub sqrt_pattern replace_sqrt (u "\sqrt[" ++ D ++ u "]{" ++ X ++ u "}")
  = Some (u "\sqrt[" ++ D ++ u "]{" ++ X ++ u "}")
  /\ _process_square_roots (u "\sqrt[" ++ D ++ u "]{" ++ X ++ u "}")
     = Some (indexed_root_phrase D X).
Proof.
  intros HD HX HDb Hb.
  assert (Hb' : forall c, In c D \/ In c X -> c <> chr "{" /\ c <> chr "}")
    by (intros; apply Hb, in_or_app; assumption).
  assert (HDo : ~ In (chr "{") D)
    by (intros H; destruct (Hb' _ (or_introl H)) as [E _]; now apply E).
  assert (HXo : ~ In (chr "{") X)
    by (intros H; destruct (Hb' _ (or_intror H)) as [E _]; now apply E).
  assert (HXc : ~ In (chr "}") X)
    by (intros H; destruct (Hb' _ (or_intror H)) as [_ E]; now apply E).
  assert (Hfirst :
            sub sqrt_pattern replace_sqrt (u "\sqrt[" ++ D ++ u "]{" ++ X ++ u "}")
            = Some (u "\sqrt[" ++ D ++ u "]{" ++ X ++ u "}")).
  { unfold sqrt_pattern. apply sub_absent. cbn [app].
    rewrite !contains_cons by reflexivity.
    apply contains_blocked with (d := chr "{");
      [right; right; right; right; right; left; reflexivity
      |apply not_In_by_eval; reflexivity|assumption|].
    rewrite contains_cons by reflexivity.
    apply contains_blocked with (d := chr "{");
      [right; right; right; right; right; left; reflexivity
      |apply not_In_by_eval; reflexivity|assumption|reflexivity]. }
  split; [exact Hfirst|].
  unfold _process_square_roots. rewrite Hfirst. unfold sub.
  pose proof (@nsqrt_match None D X [] HD HDb HX HXc) as Hm.
  rewrite app_nil_r in Hm. cbn [app] in Hm |- *.
  erewrite sub_go_whole; [|exact Hm|reflexivity|reflexivity].
  reflexivity.
Qed.

Lemma indexed_root_narrated_witness :
  _process_square_roots (u "\sqrt[3]{x}")
  = Some (u "корень 3 степени под корнем x конец корня").
Proof.
  refine (proj2 (@indexed_root_narrated (u "3") (u "x") _ _ _ _)).
  - discriminate.
  - discriminate.
  - apply not_In_by_eval; reflexivity.
  - intros c [<-|[<-|[]]]; split; discriminate.
Defined.

(* ================================================================== *)
(** ** Whitespace normalisation *)

Section GreedyAll.

Variable R : Type.
Variable p : char -> bool.
Variable f : str -> R.

(** With nothing after it in the pattern, a greedy repetition takes the
    longest run there is, or fails when the run is too short. *)
Lemma rep_greedy_all :
  forall s min acc,
    rep_greedy p min (fun acc' _ => Some (f acc')) acc s
    = if min <=? length (take_while p s)
      then Some (f (rev (take_while p s) ++ acc))
      else None.
Proof.
  induction s as [|c s IH]; intros min acc.
  - destruct min; reflexivity.
  - cbn [rep_greedy take_while]. destruct (p c).
    + rewrite IH. cbn [length rev].
      destruct (Nat.leb_spec (pred min) (length (take_while p s))) as [H|H].
      * rewrite <- app_assoc. cbn [app].
        destruct (Nat.leb_spec min (S (length (take_while p s)))); [reflexivity|lia].
      * destruct min as [|min]; [simpl in H; lia|].
        destruct (Nat.leb_spec (S min) (S (length (take_while p s))));
          [simpl in H; lia|reflexivity].
    + destruct min; reflexivity.
Qed.

End GreedyAll.

Lemma take_while_lstrip s : s = take_while isspace s ++ lstrip s.
Proof.
  induction s as [|c s IH]; [reflexivity|]. simpl.
  destruct (isspace c); [simpl; now f_equal|reflexivity].
Qed.

Lemma lstrip_length s : length (lstrip s) <= length s.
Proof.
  induction s as [|c s IH]; simpl; [lia|].
  destruct (isspace c); simpl; lia.
Qed.

Lemma collapse_in_run s : collapse_go true s = collapse (lstrip s).
Proof.
  unfold collapse. induction s as [|c s IH]; [reflexivity|]. simpl.
  destruct (isspace c) eqn:Hc; [exact IH|].
  simpl. now rewrite Hc.
Qed.

Lemma whitespace_match prev c s :
  match_at prev whitespace_pattern (c :: s)
  = if isspace c then Some (mkMatch (c :: take_while isspace s) []) else None.
Proof.
  unfold match_at, whitespace_pattern. cbn [rmatch].
  rewrite (rep_greedy_all isspace (fun acc => mkMatch (rev acc) [])).
  cbn [take_while]. destruct (isspace c); [|reflexivity].
  cbn [length Nat.leb rev]. rewrite app_nil_r, rev_app_distr, rev_involutive.
  reflexivity.
Qed.

Lemma normalise_collapse_bounded n :
  forall s prev,
    length s <= n ->
    sub_go whitespace_pattern (const_repl (u " ")) prev 0 s = Some (collapse s).
Proof.
  induction n as [|n IH]; intros s prev Hn.
  - destruct s; [reflexivity|simpl in Hn; lia].
  - destruct s as [|c s]; [reflexivity|].
    cbn [sub_go]. rewrite whitespace_match.
    unfold collapse. cbn [collapse_go].
    destruct (isspace c) eqn:Hc.
    + cbn [m_text const_repl].
      rewrite (take_while_lstrip s) at 2.
      rewrite sub_go_skip, IH.
      * rewrite collapse_in_run. reflexivity.
      * pose proof (lstrip_length s). simpl in Hn. lia.
    + rewrite IH by (simpl in Hn; lia). reflexivity.
Qed.

(** The final stage replaces every run of blanks by one space. *)
Lemma normalise_collapse s :
  sub whitespace_pattern (const_repl (u " ")) s = Some (collapse s).
Proof. apply normalise_collapse_bounded with (n := length s). lia. Qed.

Lemma spaced_weaken s : spaced true s = true -> spaced false s = true.
Proof.
  destruct s as [|c s]; [reflexivity|]. simpl.
  destruct (isspace c); [discriminate|auto].
Qed.

Lemma collapse_go_spaced s :
  forall in_run, spaced in_run (collapse_go in_run s) = true.
Proof.
  induction s as [|c s IH]; intros in_run; [reflexivity|]. simpl.
  destruct (isspace c) eqn:Hc.
  - destruct in_run; [apply IH|].
    simpl. apply IH.
  - simpl. rewrite Hc. apply IH.
Qed.

Lemma spaced_lstrip s : spaced false s = true -> spaced true (lstrip s) = true.
Proof.
  induction s as [|c s IH]; [reflexivity|]. simpl.
  destruct (isspace c) eqn:Hc.
  - intros H. apply andb_prop in H. destruct H as [_ H].
    apply IH. now apply spaced_weaken.
  - intros H. simpl. now rewrite Hc.
Qed.

Lemma spaced_prefix a : forall b start, spaced start (a ++ b) = true -> spaced start a = true.
Proof.
  induction a as [|c a IH]; intros b start H; [reflexivity|]. simpl in *.
  destruct (isspace c).
  - apply andb_prop in H. destruct H as [H1 H2].
    rewrite H1. simpl. eapply IH; eassumption.
  - eapply IH; eassumption.
Qed.

Lemma rstrip_prefix s : exists w, s = rstrip s ++ w.
Proof.
  unfold rstrip. exists (rev (take_while isspace (rev s))).
  rewrite <- rev_app_distr, <- take_while_lstrip. now rewrite rev_involutive.
Qed.

Lemma spaced_strip s : spaced false s = true -> spaced true (strip s) = true.
Proof.
  intros H. unfold strip.
  destruct (rstrip_prefix (lstrip s)) as [w E].
  apply spaced_prefix with (b := w). rewrite <- E. now apply spaced_lstrip.
Qed.

(** A text in which blanks are single spaces is left as it is by the final
    stage. *)
Lemma collapse_spaced s : forall start, spaced start s = true -> collapse_go start s = s.
Proof.
  induction s as [|c s IH]; intros start H; [reflexivity|]. simpl in *.
  destruct (isspace c).
  - apply andb_prop in H. destruct H as [H1 H2].
    apply andb_prop in H1. destruct H1 as [H0 H1].
    destruct start; [discriminate|].
    apply N.eqb_eq in H1. subst c. f_equal. now apply IH.
  - f_equal. now apply IH.
Qed.

Lemma latex_to_text_normal latex_code out :
  latex_to_text latex_code = Some out ->
  strip out = out
  /\ spaced true out = true
  /\ sub whitespace_pattern (const_repl (u " ")) out = Some out.
Proof.
  unfold latex_to_text. destruct (negb (truthy latex_code)).
  - intros [= <-]. repeat split.
  - destruct (_process_matrices _) as [t1|]; [|discriminate].
    destruct (_process_fractions _) as [t2|]; [|discriminate].
    destruct (_process_square_roots _) as [t3|]; [|discriminate].
    destruct (_process_superscripts _) as [t4|]; [|discriminate].
    destruct (_process_parentheses _) as [t5|]; [|discriminate].
    destruct (_process_common_commands _) as [t6|]; [|discriminate].
    rewrite normalise_collapse. intros [= <-].
    assert (Hs : spaced true (strip (collapse (_process_special_symbols
                                                 (_process_greek_letters t6)))) = true)
      by (apply spaced_strip, collapse_go_spaced).
    split; [apply strip_idem|]. split; [exact Hs|].
    rewrite normalise_collapse. f_equal.
    apply collapse_spaced. now apply spaced_weaken.
Qed.

(** Whatever the input, the text [latex_to_text] returns is trimmed, its
    blanks are single spaces between other characters, and normalising it
    again changes nothing. *)
Theorem output_normalised latex_code out :
  latex_to_text latex_code = Some out ->
  strip out = out
  /\ spaced true out = true
  /\ sub whitespace_pattern (const_repl (u " ")) out = Some out.
Proof. apply latex_to_text_normal. Qed.

Lemma output_normalised_witness :
  strip (u "x равно 1") = u "x равно 1"
  /\ spaced true (u "x равно 1") = true
  /\ sub whitespace_pattern (const_repl (u " ")) (u "x равно 1")
     = Some (u "x равно 1").
Proof.
  refine (@output_normalised (u "  x   =   1 ") (u "x равно 1") _).
  vm_compute; reflexivity.
Defined.

Lemma lstrip_blank s : forallb isspace s = true -> lstrip s = [].
Proof.
  induction s as [|c s IH]; [reflexivity|]. simpl. intros H.
  apply andb_prop in H. destruct H as [Hc Hs]. rewrite Hc. auto.
Qed.

Lemma strip_blank s : forallb isspace s = true -> strip s = [].
Proof. intros H. unfold strip. now rewrite (lstrip_blank s H). Qed.

(** An input made of blanks only comes out as the empty string. *)
Theorem blank_input_gives_empty s :
  forallb isspace s = true -> latex_to_text s = Some [].
Proof.
  intros H. unfold latex_to_text.
  destruct (negb (truthy s)); [reflexivity|].
  rewrite (strip_blank s H). reflexivity.
Qed.

Lemma blank_input_gives_empty_witness : latex_to_text (u "   ") = Some [].
Proof. refine (@blank_input_gives_empty (u "   ") _). reflexivity. Defined.

(* ================================================================== *)
(** ** Plain text *)

Lemma replace_go_absent old new :
  forall s, contains old s = false -> replace_go old new 0 s = s.
Proof.
  induction s as [|c s IH]; intros H; [reflexivity|].
  cbn [contains] in H. apply orb_false_elim in H. destruct H as [H1 H2].
  cbn [replace_go]. rewrite H1. f_equal. auto.
Qed.

Lemma replace_all_absent table :
  forall s, Forall (fun kv => contains (fst kv) s = false) table ->
            replace_all table s = s.
Proof.
  unfold replace_all.
  induction table as [|kv table IH]; intros s H; [reflexivity|].
  inversion H as [|? ? Hkv Htable]; subst. cbn [fold_left].
  unfold replace. rewrite replace_go_absent by assumption. auto.
Qed.

Lemma plain_lacks c s : plain s = true -> is_trigger c = true -> ~ In c s.
Proof.
  unfold plain. intros Hs Hc Hin. rewrite forallb_forall in Hs.
  apply Hs in Hin. rewrite Hc in Hin. discriminate.
Qed.

Lemma plain_lacks_key s k :
  plain s = true -> existsb is_trigger k = true -> contains k s = false.
Proof.
  intros Hs Hk. apply existsb_exists in Hk. destruct Hk as (c & Hc & Ht).
  apply contains_absent_char with (d := c); [assumption|].
  now apply plain_lacks.
Qed.

(** Every key of every table holds a trigger character. *)
Lemma keys_hold_triggers :
  forallb (existsb is_trigger) table_keys = true.
Proof. vm_compute. reflexivity. Qed.

Lemma table_absent table s :
  forallb (existsb is_trigger) (keys table) = true ->
  plain s = true -> replace_all table s = s.
Proof.
  intros Hk Hs. apply replace_all_absent. apply Forall_forall.
  intros kv Hkv. apply plain_lacks_key; [assumption|].
  rewrite forallb_forall in Hk. apply Hk. unfold keys. now apply in_map.
Qed.

Lemma plain_strip s : plain s = true -> plain (strip s) = true.
Proof.
  unfold plain. rewrite !forallb_forall. intros H c Hc.
  apply H. now apply In_strip.
Qed.

Lemma process_matrices_plain s : plain s = true -> _process_matrices s = Some s.
Proof.
  intros Hs. pose proof (plain_lacks (chr "\") s Hs eq_refl) as Hb.
  unfold _process_matrices.
  rewrite (@sub_needs _ _ replace_matrix _ matrix_needs_backslash Hb).
  change matrix_types with
    [ (u "pmatrix", u "круглые скобки"); (u "bmatrix", u "квадратные скобки");
      (u "vmatrix", u "вертикальные черты");
      (u "Vmatrix", u "двойные вертикальные черты") ].
  cbn [fold_left fst snd].
  repeat match goal with
         | |- context [sub (typed_matrix_pattern ?ty) (replace_typed_matrix ?d) s] =>
             rewrite (@sub_needs _ _ (replace_typed_matrix d) _
                        (typed_matrix_needs_backslash ty) Hb)
         end.
  reflexivity.
Qed.

Lemma process_fractions_plain s : plain s = true -> _process_fractions s = Some s.
Proof.
  intros Hs. pose proof (plain_lacks (chr "\") s Hs eq_refl) as Hb.
  unfold _process_fractions, frac_pattern, dfrac_pattern, cfrac_pattern.
  rewrite !(@sub_needs _ _ replace_frac _ (@frac_needs_backslash (chr "\") _) Hb).
  reflexivity.
Qed.

Lemma process_square_roots_plain s :
  plain s = true -> _process_square_roots s = Some s.
Proof.
  intros Hs. pose proof (plain_lacks (chr "\") s Hs eq_refl) as Hb.
  unfold _process_square_roots.
  rewrite (@sub_needs _ _ replace_sqrt _ sqrt_needs_backslash Hb).
  rewrite (@sub_needs _ _ replace_nsqrt _ nsqrt_needs_backslash Hb).
  reflexivity.
Qed.

Lemma process_superscripts_plain s :
  plain s = true -> _process_superscripts s = Some s.
Proof.
  intros Hs. pose proof (plain_lacks (chr "^") s Hs eq_refl) as Hc.
  unfold _process_superscripts.
  apply (@sub_needs _ _ replace_superscript _ superscript_needs_caret Hc).
Qed.

Lemma process_parentheses_plain s :
  plain s = true -> _process_parentheses s = Some s.
Proof.
  intros Hs. pose proof (plain_lacks (chr "(") s Hs eq_refl) as Hp.
  unfold _process_parentheses.
  rewrite (@sub_needs _ _ replace_func_single _ func_single_needs_paren Hp).
  rewrite (@sub_needs _ _ replace_func_complex _ func_complex_needs_paren Hp).
  rewrite (@sub_needs _ _ replace_single_var _ single_var_needs_paren Hp).
  rewrite (@sub_needs _ _ replace_var_minus _ var_minus_needs_paren Hp).
  rewrite (@sub_needs _ _ replace_complex_paren _ complex_paren_needs_paren Hp).
  reflexivity.
Qed.

Lemma process_common_commands_plain s :
  plain s = true -> _process_common_commands s = Some s.
Proof.
  intros Hs. pose proof (plain_lacks (chr "{") s Hs eq_refl) as Hb.
  unfold _process_common_commands.
  rewrite (table_absent commands); [|vm_compute; reflexivity|assumption].
  apply (@sub_needs _ _ template_1 _ brace_group_needs_brace Hb).
Qed.

Lemma latex_to_text_plain s :
  plain s = true -> latex_to_text s = Some (strip (collapse (strip s))).
Proof.
  intros Hs. unfold latex_to_text.
  destruct s as [|c s]; [reflexivity|]. cbn [truthy negb].
  pose proof (plain_strip _ Hs) as Hp.
  rewrite (process_matrices_plain _ Hp), (process_fractions_plain _ Hp).
  rewrite (process_square_roots_plain _ Hp), (process_superscripts_plain _ Hp).
  rewrite (process_parentheses_plain _ Hp).
  unfold _process_math_symbols.
  rewrite (table_absent MathSymbols.symbols); [|vm_compute; reflexivity|assumption].
  rewrite (process_common_commands_plain _ Hp).
  unfold _process_greek_letters, _process_special_symbols.
  rewrite (table_absent greek_letters); [|vm_compute; reflexivity|assumption].
  rewrite (table_absent SpecialSymbols.symbols); [|vm_compute; reflexivity|assumption].
  rewrite normalise_collapse. reflexivity.
Qed.

(** A text that holds none of the characters [\ ^ ( { + - * = < >] goes
    through the nine rewriting stages unchanged: only its blanks are
    normalised. *)
Theorem plain_text_passes s :
  plain s = true -> latex_to_text s = Some (strip (collapse (strip s))).
Proof. apply latex_to_text_plain. Qed.

Lemma plain_text_passes_witness :
  latex_to_text (u " x в степени 2   плюс y ") = Some (u "x в степени 2 плюс y").
Proof.
  refine (@plain_text_passes (u " x в степени 2   плюс y ") _).
  reflexivity.
Defined.

Lemma plain_collapse s : forall in_run, plain s = true -> plain (collapse_go in_run s) = true.
Proof.
  unfold plain. induction s as [|c s IH]; intros in_run H; [reflexivity|].
  simpl in H. apply andb_prop in H. destruct H as [Hc Hs]. simpl.
  destruct (isspace c).
  - destruct in_run; [auto|].
    cbn [forallb]. rewrite (IH true Hs). reflexivity.
  - cbn [forallb]. rewrite Hc. apply IH, Hs.
Qed.

(** On a text without trigger characters a second run of the transform
    returns what the first run returned. *)
Theorem plain_text_stable s : plain s = true -> twice s = latex_to_text s.
Proof.
  intros Hs. unfold twice.
  pose proof (latex_to_text_plain s Hs) as Hout. rewrite Hout.
  set (out := strip (collapse (strip s))) in *.
  assert (Hp : plain out = true)
    by (apply plain_strip, plain_collapse, plain_strip, Hs).
  destruct (latex_to_text_normal _ Hout) as (Hstrip & _ & Hfix).
  rewrite normalise_collapse in Hfix. injection Hfix as Hfix.
  rewrite (latex_to_text_plain out Hp), Hstrip, Hfix, Hstrip. reflexivity.
Qed.

Lemma plain_text_stable_witness :
  twice (u "x в степени 2 плюс y в степени 2 равно z в степени 2")
  = latex_to_text (u "x в степени 2 плюс y в степени 2 равно z в степени 2").
Proof.
  refine (@plain_text_stable
            (u "x в степени 2 плюс y в степени 2 равно z в степени 2") _).
  reflexivity.
Defined.

(* ================================================================== *)
(** ** Function application *)

Lemma alpha_range c : alpha c = true -> (65 <= c <= 122)%N.
Proof.
  unfold alpha. intros H.
  rewrite ?orb_true_iff, ?andb_true_iff, ?N.leb_le in H. lia.
Qed.

Lemma alpha_alnum c : alpha c = true -> alnum c = true.
Proof. unfold alnum. intros ->. reflexivity. Qed.

Lemma strip_alpha s : forallb alpha s = true -> strip s = s.
Proof.
  intros H. apply strip_alnum. rewrite forallb_forall in *.
  intros c Hc. apply alpha_alnum, H, Hc.
Qed.

Lemma alpha_lacks_paren s : forallb alpha s = true -> ~ In (chr "(") s.
Proof.
  intros H Hin. rewrite forallb_forall in H. apply H in Hin.
  apply alpha_range in Hin. lia.
Qed.

Lemma func_single_match prev F V rest :
  F <> [] -> V <> [] -> forallb alpha F = true -> forallb alpha V = true ->
  match_at prev func_single_pattern (F ++ u "(" ++ V ++ u ")" ++ rest)
  = Some (mkMatch (F ++ u "(" ++ V ++ u ")") [(2, V); (1, F)]).
Proof.
  intros HF HV HFa HVa. unfold match_at, func_single_pattern. cbn [rmatch].
  apply rep_greedy_run.
  - reflexivity.
  - assumption.
  - destruct F; [congruence|simpl; lia].
  - rewrite app_nil_r.
    rewrite (@capture_at F [] (rev F)) by (now rewrite app_nil_r).
    rewrite strip_prefix_app.
    apply rep_greedy_run.
    + reflexivity.
    + assumption.
    + destruct V; [congruence|simpl; lia].
    + rewrite capture_text, strip_prefix_app.
      rewrite !rev_app_distr, !rev_involutive, <- !app_assoc.
      reflexivity.
Qed.

(** A name made of letters applied to one variable made of letters,
    "f(x)", is read "f of x" by the first sub-rule, and the four sub-rules
    after it leave that reading alone. *)
Theorem function_of_one_variable F V :
  F <> [] -> V <> [] -> forallb alpha F = true -> forallb alpha V = true ->
  _process_parentheses (F ++ u "(" ++ V ++ u ")") = Some (function_phrase F V).
Proof.
  intros HF HV HFa HVa.
  assert (Hp : ~ In (chr "(") (function_phrase F V)).
  { unfold function_phrase.
    apply lacks_by_parts; [now apply alpha_lacks_paren|].
    apply lacks_by_parts; [apply not_In_by_eval; reflexivity|].
    now apply alpha_lacks_paren. }
  unfold _process_parentheses.
  assert (Hfirst : sub func_single_pattern replace_func_single
                     (F ++ u "(" ++ V ++ u ")") = Some (function_phrase F V)).
  { unfold sub.
    pose proof (@func_single_match None F V [] HF HV HFa HVa) as Hm.
    rewrite app_nil_r in Hm.
    destruct F as [|c F]; [congruence|]. cbn [app] in Hm |- *.
    eapply sub_go_whole; [exact Hm|reflexivity|].
    unfold replace_func_single, group. cbn [m_groups lookup Nat.eqb].
    rewrite (strip_alpha _ HFa), (strip_alpha _ HVa). reflexivity. }
  rewrite Hfirst.
  rewrite (@sub_needs _ _ replace_func_complex _ func_complex_needs_paren Hp).
  rewrite (@sub_needs _ _ replace_single_var _ single_var_needs_paren Hp).
  rewrite (@sub_needs _ _ replace_var_minus _ var_minus_needs_paren Hp).
  rewrite (@sub_needs _ _ replace_complex_paren _ complex_paren_needs_paren Hp).
  reflexivity.
Qed.

Lemma function_of_one_variable_witness :
  _process_parentheses (u "sin(t)") = Some (u "sin от t").
Proof.
  refine (@function_of_one_variable (u "sin") (u "t") _ _ _ _);
    try discriminate; reflexivity.
Defined.

(* ================================================================== *)
(** ** The speech front end *)

Lemma latex_to_text_returns latex_code :
  exists text, latex_to_text latex_code = Some text.
Proof.
  unfold latex_to_text.
  destruct (negb (truthy latex_code)); [eauto|].
  destruct (process_matrices_total (strip latex_code)) as [t1 ->].
  destruct (process_fractions_total t1) as [t2 ->].
  destruct (process_square_roots_total t2) as [t3 ->].
  destruct (process_superscripts_total t3) as [t4 ->].
  destruct (process_parentheses_total t4) as [t5 ->].
  destruct (process_common_commands_total (_process_math_symbols t5)) as [t6 ->].
  destruct (normalise_total
              (_process_special_symbols (_process_greek_letters t6))) as [t7 ->].
  eauto.
Qed.

Import Voice.

Lemma flag_given name value :
  (if given value then [name; or_empty value] else []) = flag name value.
Proof. destruct value as [[|c v]|]; reflexivity. Qed.

(** [speak_rhvoice] does nothing at all on an empty text, even without
    spd-say; on any other text it raises [RuntimeError] without running
    anything when spd-say is missing, and otherwise runs exactly one
    command: spd-say, the options that were given in the order -o -l -y -r
    -p -i, and last the text, converted when conversion is on.  String
    options that are empty count as not given; a number is passed even
    when it is zero. *)
Theorem speak_rhvoice_outcomes e text voice rate pitch volume lang module convert :
  let result := speak_rhvoice e text voice rate pitch volume lang module convert in
  (text = [] -> result = ([], None))
  /\ (text <> [] -> is_spd_say_available e = false ->
      fst result = [] /\ exists msg, snd result = Some (RuntimeError msg))
  /\ (text <> [] -> is_spd_say_available e = true ->
      exists spoken,
        (if convert then latex_to_text text else Some text) = Some spoken
        /\ let cmd := u "spd-say"
                        :: flag (u "-o") module ++ flag (u "-l") lang
                        ++ flag (u "-y") voice ++ number_flag (u "-r") rate
                        ++ number_flag (u "-p") pitch
                        ++ number_flag (u "-i") volume ++ [spoken] in
           result = ([Exec cmd], run e cmd)).
Proof.
  cbv zeta. split; [intros ->; reflexivity|].
  assert (Hs : exists spoken,
             (if convert then latex_to_text text else Some text) = Some spoken).
  { destruct convert; [apply latex_to_text_returns|eauto]. }
  destruct Hs as [spoken Hs].
  split; intros Htext Havail; unfold speak_rhvoice;
    destruct text as [|c text]; try congruence; cbn [truthy negb];
    rewrite Hs, Havail; cbn [negb].
  - split; [reflexivity|eexists; reflexivity].
  - exists spoken. split; [reflexivity|].
    rewrite <- !flag_given.
    destruct (given module), (given lang), (given voice), rate, pitch, volume;
      reflexivity.
Qed.

Lemma speak_rhvoice_outcomes_witness :
  speak_rhvoice (mkEnv (fun _ => Some (u "/usr/bin/spd-say")) (fun _ => None)
                   (fun _ => None))
    (u "x^2") (Some (u "anna")) (Some 0%Z) None None (Some []) None true
  = ([Exec [u "spd-say"; u "-y"; u "anna"; u "-r"; u "0"; u "x в степени 2"]], None).
Proof.
  pose (e := mkEnv (fun _ => Some (u "/usr/bin/spd-say")) (fun _ => None)
               (fun _ : list str => @None (option str * option str))).
  destruct (proj2 (proj2 (speak_rhvoice_outcomes e (u "x^2") (Some (u "anna"))
                            (Some 0%Z) None None (Some []) None true))
              ltac:(discriminate) eq_refl) as (spoken & Hs & H).
  vm_compute in Hs. injection Hs as <-. exact H.
Defined.

(** The three ways a call of [speak_rhvoice] can end. *)
Lemma speak_rhvoice_shape e text voice rate pitch volume lang module convert :
  let result := speak_rhvoice e text voice rate pitch volume lang module convert in
  (text = [] /\ result = ([], None))
  \/ (text <> []
      /\ exists exc, result = ([], Some exc)
                     /\ forall rc, exc <> CalledProcessError rc)
  \/ (text <> [] /\ is_spd_say_available e = true
      /\ exists rest, result = ([Exec (u "spd-say" :: rest)],
                                run e (u "spd-say" :: rest))).
Proof.
  cbv zeta. unfold speak_rhvoice.
  destruct (if convert then latex_to_text text else Some text) as [spoken|].
  all: destruct text as [|c text]; [now left|]; cbn [truthy negb].
  all: assert (Hne : c :: text <> []) by discriminate.
  - destruct (is_spd_say_available e); cbn [negb].
    + right; right. split; [assumption|]. split; [reflexivity|].
      destruct (given module), (given lang), (given voice), rate, pitch, volume;
        eexists; reflexivity.
    + right; left. split; [assumption|].
      eexists. split; [reflexivity|discriminate].
  - right; left. split; [assumption|].
    eexists. split; [reflexivity|discriminate].
Qed.

Lemma latex_to_speech_cases e latex voice rate lang first :
  latex_to_text latex = Some first ->
  (first = [] -> latex_to_speech true e latex voice rate lang = [])
  /\ (first <> [] -> is_spd_say_available e = false ->
      exists msg,
        latex_to_speech true e latex voice rate lang
        = [PrintExc (u "Ошибка озвучивания: ") (RuntimeError msg)])
  /\ (first <> [] -> is_spd_say_available e = true ->
      exists second,
        latex_to_text first = Some second
        /\ let cmd := u "spd-say" :: flag (u "-l") (Some lang)
                        ++ flag (u "-y") (Some voice)
                        ++ [u "-r"; str_of_Z rate; second] in
           latex_to_speech true e latex voice rate lang
           = Exec cmd
               :: match run e cmd with
                  | None => []
                  | Some exc => [PrintExc (u "Ошибка озвучивания: ") exc]
                  end).
Proof.
  intros Hfirst. unfold latex_to_speech. cbn [negb]. rewrite Hfirst.
  split; [intros ->; reflexivity|].
  destruct (latex_to_text_returns first) as [second Hsecond].
  split; intros Hne Havail; unfold speak_rhvoice;
    destruct first as [|c first]; try congruence; cbn [truthy negb];
    rewrite Hsecond, Havail; cbn [negb fst snd].
  - eexists; reflexivity.
  - exists second. split; [reflexivity|]. cbv zeta.
    destruct lang as [|cl lang], voice as [|cv voice];
      cbv zeta; cbn [given flag or_empty app fst snd]; unfold str, char;
      match goal with |- context [run e ?cmd] => destruct (run e cmd) end;
      reflexivity.
Qed.

(** [latex_to_speech] hands its text to [speak_rhvoice] already converted,
    and [speak_rhvoice] converts it again: the text that reaches spd-say is
    the transform applied twice, after -l, -y and -r in that order.  When
    the first conversion gives the empty string nothing is run and nothing
    is printed; when spd-say is missing the error is printed and nothing is
    run. *)
Theorem latex_to_speech_converts_twice e latex voice rate lang first :
  latex_to_text latex = Some first ->
  (first = [] -> latex_to_speech true e latex voice rate lang = [])
  /\ (first <> [] -> is_spd_say_available e = false ->
      exists msg,
        latex_to_speech true e latex voice rate lang
        = [PrintExc (u "Ошибка озвучивания: ") (RuntimeError msg)])
  /\ (first <> [] -> is_spd_say_available e = true ->
      exists second,
        latex_to_text first = Some second
        /\ let cmd := u "spd-say" :: flag (u "-l") (Some lang)
                        ++ flag (u "-y") (Some voice)
                        ++ [u "-r"; str_of_Z rate; second] in
           latex_to_speech true e latex voice rate lang
           = Exec cmd
               :: match run e cmd with
                  | None => []
                  | Some exc => [PrintExc (u "Ошибка озвучивания: ") exc]
                  end).
Proof. apply latex_to_speech_cases. Qed.

Lemma latex_to_speech_converts_twice_witness :
  latex_to_speech true
    (mkEnv (fun _ => Some (u "/usr/bin/spd-say")) (fun _ => None) (fun _ => None))
    (u "\updownarrow") (u "anna") 0%Z (u "ru")
  = [Exec [u "spd-say"; u "-l"; u "ru"; u "-y"; u "anna"; u "-r"; u "0";
           u "стрелка вверх минус вниз"]].
Proof.
  pose (e := mkEnv (fun _ => Some (u "/usr/bin/spd-say")) (fun _ => None)
               (fun _ : list str => @None (option str * option str))).
  destruct (proj2 (proj2 (@latex_to_speech_converts_twice e (u "\updownarrow")
                            (u "anna") 0%Z (u "ru") (u "стрелка вверх-вниз")
                            ltac:(vm_compute; reflexivity)))
              ltac:(discriminate) eq_refl) as (second & Hs & H).
  vm_compute in Hs. injection Hs as <-. exact H.
Defined.

(* ================================================================== *)
(** ** The argument loop of [main] *)

Lemma str_eqb_refl a : str_eqb a a = true.
Proof. induction a as [|c a IH]; [reflexivity|]. simpl. now rewrite N.eqb_refl. Qed.

Lemma options_eta o : set_text_parts o (text_parts o) = o.
Proof. destruct o; reflexivity. Qed.

Section ArgumentLoop.

Variable py_int : str -> option Z.
Variable py_lower : str -> str.

(** An argument that is none of the eight words is appended to the text,
    whatever follows it. *)
Lemma parse_loop_word a rest o :
  is_flag_word a = false ->
  parse_loop py_int py_lower (a :: rest) o
  = parse_loop py_int py_lower rest (set_text_parts o (text_parts o ++ [a])).
Proof.
  unfold is_flag_word, flag_words. cbn [existsb]. intros H.
  repeat (apply orb_false_elim in H; let H1 := fresh "H" in destruct H as [H1 H]).
  cbn [parse_loop].
  destruct rest as [|v rest'];
    repeat match goal with E : str_eqb a _ = false |- _ => rewrite E; clear E end;
    reflexivity.
Qed.

Lemma parse_loop_words args :
  forall more o,
    Forall (fun a => is_flag_word a = false) args ->
    parse_loop py_int py_lower (args ++ more) o
    = parse_loop py_int py_lower more (set_text_parts o (text_parts o ++ args)).
Proof.
  induction args as [|a args IH]; intros more o H.
  - cbn [app]. now rewrite app_nil_r, options_eta.
  - inversion H as [|? ? Ha Hargs]; subst. cbn [app].
    rewrite parse_loop_word by assumption.
    rewrite IH by assumption. f_equal.
    unfold set_text_parts; cbn. now rewrite <- app_assoc.
Qed.

Lemma parse_loop_text_and_trailing args last o :
  Forall (fun a => is_flag_word a = false) args ->
  is_flag_word last = false \/ In last value_flags ->
  parse_loop py_int py_lower (args ++ [last]) o
  = Some (set_text_parts o (text_parts o ++ args ++ [last])).
Proof.
  intros Hargs Hlast. rewrite parse_loop_words by assumption.
  assert (Hstep : forall o', parse_loop py_int py_lower [last] o'
                             = Some (set_text_parts o' (text_parts o' ++ [last]))).
  { intros o'. destruct Hlast as [Hlast|Hlast].
    - now rewrite parse_loop_word.
    - unfold value_flags in Hlast. cbn [In] in Hlast.
      repeat (destruct Hlast as [<-|Hlast]; [reflexivity|]). destruct Hlast. }
  rewrite Hstep. f_equal. unfold set_text_parts; cbn. now rewrite <- app_assoc.
Qed.

Lemma parse_loop_bad_number args f v rest o :
  Forall (fun a => is_flag_word a = false) args ->
  In f [u "--rate"; u "--pitch"; u "--volume"] ->
  py_int v = None ->
  parse_loop py_int py_lower (args ++ f :: v :: rest) o = None.
Proof.
  intros Hargs Hf Hv. rewrite parse_loop_words by assumption.
  cbn [In] in Hf.
  repeat (destruct Hf as [<-|Hf]; [cbn; now rewrite Hv|]). destruct Hf.
Qed.

End ArgumentLoop.

(** Arguments that are none of the eight flag words all become text, in
    order, and leave every option at its value; a flag that asks for a
    value but stands last, with nothing after it, becomes text as well. *)
Theorem arguments_without_flags py_int py_lower args last o :
  Forall (fun a => is_flag_word a = false) args ->
  is_flag_word last = false \/ In last value_flags ->
  parse_loop py_int py_lower (args ++ [last]) o
  = Some (set_text_parts o (text_parts o ++ args ++ [last])).
Proof. apply parse_loop_text_and_trailing. Qed.

Lemma arguments_without_flags_witness :
  parse_loop (fun _ => None) (fun s => s) [u "x^2"; u "+"; u "--rate"] initial
  = Some (set_text_parts initial [u "x^2"; u "+"; u "--rate"]).
Proof.
  refine (@arguments_without_flags (fun _ => None) (fun s => s)
            [u "x^2"; u "+"] (u "--rate") initial _ _).
  - repeat constructor.
  - right. right; right; left. reflexivity.
Defined.

(* ================================================================== *)
(** ** [main] *)

Lemma main_cases py_int py_lower e argv events code :
  main py_int py_lower e argv = Some (events, code) ->
  (code = 0%Z ->
   (exists msg, events = [Print msg])
   \/ (exists cmd, events = [Exec cmd] /\ run e cmd = None))
  /\ (forall cmd,
         In (Exec cmd) events ->
         is_spd_say_available e = true
         /\ hd_error cmd = Some (u "spd-say")
         /\ (run e cmd <> None -> code <> 0%Z))
  /\ length (filter is_exec events) <= 1.
Proof.
  unfold main.
  destruct (parse_loop py_int py_lower (filter truthy (tl argv)) initial) as [o|];
    [|discriminate].
  destruct (list_only o).
  { intros [= <- <-]. split; [left; eauto|].
    split; [intros cmd [H|[]]; discriminate|simpl; lia]. }
  destruct (negb (is_rhvoice_available e)).
  { intros [= <- <-]. split; [discriminate|].
    split; [intros cmd [H|[]]; discriminate|simpl; lia]. }
  set (text := if negb (truthy (strip (join (u " ") (text_parts o))))
               then greeting else strip (join (u " ") (text_parts o))).
  assert (Htext : text <> []).
  { subst text. destruct (strip (join (u " ") (text_parts o))); discriminate. }
  destruct (speak_rhvoice_shape e text (voice o) (rate o) (pitch o) (volume o)
              (lang o) (module o) (convert_latex o))
    as [[H _]|[(_ & exc & -> & Hexc)|(_ & Havail & rest & ->)]];
    [congruence| |]; cbn [fst snd app].
  - destruct exc as [msg|rc|]; [|exfalso; now apply (Hexc rc)|];
      intros [= <- <-];
      (split; [discriminate|]);
      (split; [intros cmd [H|[]]; discriminate|simpl; lia]).
  - destruct (run e (u "spd-say" :: rest)) as [[msg|rc|]|] eqn:Hrun;
      intros [= <- <-].
    + split; [discriminate|].
      split; [|simpl; lia].
      intros cmd [[= <-]|[H|[]]]; [|discriminate].
      repeat split; try assumption. discriminate.
    + split; [destruct (Z.eqb_spec rc 0); [discriminate|congruence]|].
      split; [|simpl; lia].
      intros cmd [[= <-]|[H|[]]]; [|discriminate].
      repeat split; try assumption.
      intros _. destruct (Z.eqb_spec rc 0); [discriminate|assumption].
    + split; [discriminate|].
      split; [|simpl; lia].
      intros cmd [[= <-]|[H|[]]]; [|discriminate].
      repeat split; try assumption. discriminate.
    + split; [intros _; right; eauto|].
      split; [|simpl; lia].
      intros cmd [[= <-]|[]].
      repeat split; try assumption. congruence.
Qed.

(** When [main] returns, exit code 0 means that it printed the voice list
    or ran one speech command that completed; a speech command whose run
    raised never ends in exit code 0, not even when the process reported
    return code 0; [main] runs at most one speech command, always spd-say,
    and only when spd-say was found. *)
Theorem main_exit_code py_int py_lower e argv events code :
  main py_int py_lower e argv = Some (events, code) ->
  (code = 0%Z ->
   (exists msg, events = [Print msg])
   \/ (exists cmd, events = [Exec cmd] /\ run e cmd = None))
  /\ (forall cmd,
         In (Exec cmd) events ->
         is_spd_say_available e = true
         /\ hd_error cmd = Some (u "spd-say")
         /\ (run e cmd <> None -> code <> 0%Z))
  /\ length (filter is_exec events) <= 1.
Proof. apply main_cases. Qed.

Lemma main_exit_code_witness :
  is_spd_say_available
    (mkEnv (fun _ => Some (u "/usr/bin/spd-say"))
       (fun _ => Some (CalledProcessError 0)) (fun _ => None)) = true
  /\ hd_error [u "spd-say"; u "-l"; u "ru"; u "x"] = Some (u "spd-say")
  /\ (run (mkEnv (fun _ => Some (u "/usr/bin/spd-say"))
              (fun _ => Some (CalledProcessError 0)) (fun _ => None))
         [u "spd-say"; u "-l"; u "ru"; u "x"] <> None ->
      1%Z <> 0%Z).
Proof.
  refine (proj1 (proj2 (@main_exit_code (fun _ => None) (fun s => s)
                          (mkEnv (fun _ => Some (u "/usr/bin/spd-say"))
                             (fun _ => Some (CalledProcessError 0))
                             (fun _ => None))
                          [u "voice.py"; u "x"]
                          [Exec [u "spd-say"; u "-l"; u "ru"; u "x"];
                           PrintExc (u "Ошибка запуска RHVoice: ")
                             (CalledProcessError 0)]
                          1%Z _))
            [u "spd-say"; u "-l"; u "ru"; u "x"] _).
  - vm_compute; reflexivity.
  - left; reflexivity.
Defined.

Lemma filter_truthy_words args :
  Forall (fun a => is_flag_word a = false) args ->
  Forall (fun a => is_flag_word a = false) (filter truthy args).
Proof.
  intros H. apply Forall_forall. intros a Ha.
  apply filter_In in Ha. destruct Ha as [Ha _].
  rewrite Forall_forall in H. auto.
Qed.

Lemma main_bad_number py_int py_lower e prog args f v rest :
  Forall (fun a => is_flag_word a = false) args ->
  In f [u "--rate"; u "--pitch"; u "--volume"] ->
  v <> [] -> py_int v = None ->
  main py_int py_lower e (prog :: args ++ f :: v :: rest) = None.
Proof.
  intros Hargs Hf Hv Hint. unfold main. cbn [tl].
  rewrite filter_app.
  assert (E : filter truthy (f :: v :: rest) = f :: v :: filter truthy rest).
  { destruct v as [|c v]; [congruence|].
    cbn [In] in Hf. repeat (destruct Hf as [<-|Hf]; [reflexivity|]). destruct Hf. }
  rewrite E, parse_loop_bad_number;
    [reflexivity|now apply filter_truthy_words|assumption|assumption].
Qed.

(** A value of --rate, --pitch or --volume that [int] rejects makes [main]
    raise: the [ValueError] is not caught and there is no exit code,
    whatever the surroundings and the arguments after it, as long as the
    arguments before it are no flag words. *)
Theorem bad_number_escapes_main py_int py_lower e prog args f v rest :
  Forall (fun a => is_flag_word a = false) args ->
  In f [u "--rate"; u "--pitch"; u "--volume"] ->
  v <> [] -> py_int v = None ->
  main py_int py_lower e (prog :: args ++ f :: v :: rest) = None.
Proof. apply main_bad_number. Qed.

Lemma bad_number_escapes_main_witness :
  main (fun _ => None) (fun s => s)
    (mkEnv (fun _ => None) (fun _ => None) (fun _ => None))
    [u "voice.py"; u "text"; u "--rate"; u "fast"; u "--list"] = None.
Proof.
  refine (@bad_number_escapes_main (fun _ => None) (fun s => s) _
            (u "voice.py") [u "text"] (u "--rate") (u "fast") [u "--list"]
            _ _ _ _).
  - repeat constructor.
  - left; reflexivity.
  - discriminate.
  - reflexivity.
Defined.

(* ================================================================== *)
(** ** The greeting *)

Lemma blank_not_flag a : a <> [] -> blank a = true -> is_flag_word a = false.
Proof.
  destruct a as [|c a]; [congruence|]. intros _ H.
  unfold blank in H. cbn [forallb] in H. apply andb_prop in H.
  destruct H as [Hc _]. apply isspace_range in Hc.
  assert (E : (c =? 45)%N = false) by (apply N.eqb_neq; lia).
  unfold is_flag_word, flag_words. cbn [existsb str_eqb]. rewrite E. reflexivity.
Qed.

Lemma join_blank items :
  Forall (fun a => blank a = true) items -> blank (join (u " ") items) = true.
Proof.
  unfold blank. induction items as [|a items IH]; intros H; [reflexivity|].
  inversion H as [|? ? Ha Hitems]; subst.
  destruct items as [|b items]; [exact Ha|].
  change (join (u " ") (a :: b :: items))
    with (a ++ u " " ++ join (u " ") (b :: items)).
  rewrite !forallb_app, Ha, (IH Hitems). reflexivity.
Qed.

Lemma main_greeting py_int py_lower e prog args :
  Forall (fun a => blank a = true) args ->
  is_spd_say_available e = true ->
  let cmd := [u "spd-say"; u "-l"; u "ru"; greeting] in
  main py_int py_lower e (prog :: args)
  = match run e cmd with
    | None => Some ([Exec cmd], 0%Z)
    | Some (CalledProcessError rc) =>
        Some ([Exec cmd;
               PrintExc (u "Ошибка запуска RHVoice: ") (CalledProcessError rc)],
              if (rc =? 0)%Z then 1%Z else rc)
    | Some exc => Some ([Exec cmd; PrintExc (u "Ошибка: ") exc], 1%Z)
    end.
Proof.
  intros Hargs Havail. cbv zeta. unfold main. cbn [tl].
  assert (Hwords : Forall (fun a => is_flag_word a = false) (filter truthy args)).
  { apply Forall_forall. intros a Ha. apply filter_In in Ha.
    destruct Ha as [Ha Ht]. apply blank_not_flag.
    - destruct a; [discriminate|discriminate].
    - rewrite Forall_forall in Hargs. auto. }
  assert (Hblank : Forall (fun a => blank a = true) (filter truthy args)).
  { apply Forall_forall. intros a Ha. apply filter_In in Ha.
    rewrite Forall_forall in Hargs. apply Hargs, Ha. }
  rewrite <- (app_nil_r (filter truthy args)).
  rewrite parse_loop_words by assumption.
  cbn [parse_loop initial set_text_parts text_parts list_only lang voice rate
         pitch volume module convert_latex app].
  rewrite (strip_blank _ (join_blank Hblank)). cbn [truthy negb].
  unfold is_rhvoice_available. rewrite Havail. cbn [negb].
  unfold speak_rhvoice. rewrite Havail.
  replace (latex_to_text greeting) with (Some greeting)
    by (vm_compute; reflexivity).
  cbn [greeting truthy negb given or_empty app fst snd]. unfold str, char.
  match goal with |- context [run e ?cmd] => destruct (run e cmd) as [[msg|rc|]|] end;
    reflexivity.
Qed.

(** Called without text, or with arguments that are all blank, [main]
    speaks the greeting in Russian: the one command it runs is spd-say -l ru
    with the greeting, which the conversion leaves as it is. *)
Theorem main_greets_without_text py_int py_lower e prog args :
  Forall (fun a => blank a = true) args ->
  is_spd_say_available e = true ->
  let cmd := [u "spd-say"; u "-l"; u "ru"; greeting] in
  main py_int py_lower e (prog :: args)
  = match run e cmd with
    | None => Some ([Exec cmd], 0%Z)
    | Some (CalledProcessError rc) =>
        Some ([Exec cmd;
               PrintExc (u "Ошибка запуска RHVoice: ") (CalledProcessError rc)],
              if (rc =? 0)%Z then 1%Z else rc)
    | Some exc => Some ([Exec cmd; PrintExc (u "Ошибка: ") exc], 1%Z)
    end.
Proof. apply main_greeting. Qed.

Lemma main_greets_without_text_witness :
  main (fun _ => None) (fun s => s)
    (mkEnv (fun _ => Some (u "/usr/bin/spd-say")) (fun _ => None) (fun _ => None))
    [u "voice.py"; []; u "  "]
  = Some ([Exec [u "spd-say"; u "-l"; u "ru"; u "Привет! Это RHVoice."]], 0%Z).
Proof.
  refine (@main_greets_without_text (fun _ => None) (fun s => s)
            (mkEnv (fun _ => Some (u "/usr/bin/spd-say")) (fun _ => None)
               (fun _ => None))
            (u "voice.py") [[]; u "  "] _ _).
  - repeat constructor.
  - reflexivity.
Defined.

(* ================================================================== *)
(** ** What the argument loop keeps *)

Lemma str_eqb_neq a b : str_eqb a b = false -> a <> b.
Proof. intros H ->. rewrite str_eqb_refl in H. discriminate. Qed.

Ltac loop_option IH H :=
  apply IH in H; [|simpl in *; lia];
  let added := fresh "added" in
  destruct H as (added & ? & Hincl & ? & ? & ? & ?);
  exists added; cbn in *;
  repeat split; auto;
  let x := fresh "x" in
  let Hx := fresh "Hx" in
  intros x Hx; apply Hincl in Hx; simpl; tauto.

Ltac loop_text IH H a :=
  apply IH in H; [|simpl in *; lia];
  let added := fresh "added" in
  destruct H as (added & Ht & Hincl & Hl & Hn & ? & ?);
  exists (a :: added); cbn in *;
  repeat split; auto;
  [ rewrite Ht, <- app_assoc; reflexivity
  | let x := fresh "x" in
    let Hx := fresh "Hx" in
    intros x [Hx|Hx]; [left; assumption|apply Hincl in Hx; simpl; tauto]
  | intros [Hx|Hx]; [|tauto];
    match goal with E : str_eqb a _ = false |- _ =>
      apply str_eqb_neq in E; congruence end
  | intros [Hx|Hx]; [|tauto];
    match goal with E : str_eqb a _ = false |- _ =>
      apply str_eqb_neq in E; congruence end ].

Lemma parse_loop_invariant py_int py_lower n :
  forall args o o',
    length args <= n ->
    parse_loop py_int py_lower args o = Some o' ->
    exists added,
      text_parts o' = text_parts o ++ added
      /\ incl added args
      /\ ~ In (u "--list") added
      /\ ~ In (u "--no-latex") added
      /\ (list_only o = true -> list_only o' = true)
      /\ (convert_latex o = false -> convert_latex o' = false).
Proof.
  induction n as [|n IH]; intros args o o' Hlen H.
  - destruct args; [|simpl in Hlen; lia]. injection H as <-.
    exists []. rewrite app_nil_r. repeat split; auto. intros x [].
  - destruct args as [|a rest].
    { injection H as <-. exists []. rewrite app_nil_r.
      repeat split; auto. intros x []. }
    cbn [parse_loop] in H. destruct rest as [|v rest'].
    + destruct (str_eqb a (u "--list")) eqn:E1; [loop_option IH H|].
      destruct (str_eqb a (u "--no-latex")) eqn:E2; [loop_option IH H|].
      loop_text IH H a.
    + destruct (str_eqb a (u "--lang")); [loop_option IH H|].
      destruct (str_eqb a (u "--voice")); [loop_option IH H|].
      destruct (str_eqb a (u "--rate"));
        [destruct (py_int v); [loop_option IH H|discriminate]|].
      destruct (str_eqb a (u "--pitch"));
        [destruct (py_int v); [loop_option IH H|discriminate]|].
      destruct (str_eqb a (u "--volume"));
        [destruct (py_int v); [loop_option IH H|discriminate]|].
      destruct (str_eqb a (u "--list")) eqn:E1; [loop_option IH H|].
      destruct (str_eqb a (u "--module")); [loop_option IH H|].
      destruct (str_eqb a (u "--no-latex")) eqn:E2; [loop_option IH H|].
      loop_text IH H a.
Qed.

(** What the argument loop of [main] keeps: the text parts it had, in
    order, followed by arguments of the command line; "--list" and
    "--no-latex" never become text; once set, listing stays set, and once
    switched off, conversion stays off. *)
Theorem argument_loop_keeps py_int py_lower args o o' :
  parse_loop py_int py_lower args o = Some o' ->
  exists added,
    text_parts o' = text_parts o ++ added
    /\ incl added args
    /\ ~ In (u "--list") added
    /\ ~ In (u "--no-latex") added
    /\ (list_only o = true -> list_only o' = true)
    /\ (convert_latex o = false -> convert_latex o' = false).
Proof. apply parse_loop_invariant with (n := length args). lia. Qed.

Lemma argument_loop_keeps_witness :
  exists added,
    [u "a"; u "b"] = [] ++ added
    /\ incl added [u "--list"; u "a"; u "--voice"; u "--no-latex"; u "b"]
    /\ ~ In (u "--list") added
    /\ ~ In (u "--no-latex") added
    /\ (false = true -> true = true)
    /\ (true = false -> true = false).
Proof.
  refine (@argument_loop_keeps (fun _ => None) (fun s => s)
            [u "--list"; u "a"; u "--voice"; u "--no-latex"; u "b"] initial
            (mkOptions [u "a"; u "b"] (Some (u "ru")) (Some (u "--no-latex"))
               None None None true None true) _).
  vm_compute; reflexivity.
Defined.

(* ================================================================== *)
(** ** A matrix environment alone in the text *)

Section LazyRun.

Variable R : Type.

(** A lazy repetition stops at the first position where the rest of the
    pattern succeeds. *)
Lemma rep_lazy_run p (k : str -> str -> option R) s res :
  forall X acc,
    forallb p X = true ->
    (forall A b B, X = A ++ b :: B -> k (rev A ++ acc) (b :: B ++ s) = None) ->
    k (rev X ++ acc) s = Some res ->
    rep_lazy p 0 k acc (X ++ s) = Some res.
Proof.
  induction X as [|x X IH]; intros acc HX Hfail Hk.
  - simpl in Hk. destruct s; simpl; now rewrite Hk.
  - simpl in HX. apply andb_prop in HX. destruct HX as [Hx HX].
    pose proof (Hfail [] x X eq_refl) as H0. cbn [rev app] in H0.
    cbn [app rep_lazy]. rewrite H0, Hx.
    apply IH; [assumption| |].
    + intros A b B E. rewrite <- (Hfail (x :: A) b B) by (now rewrite E).
      simpl. now rewrite <- app_assoc.
    + simpl in Hk. now rewrite <- app_assoc in Hk.
Qed.

End LazyRun.

(** The closing literal cannot begin inside a body that lacks one of its
    characters. *)
Lemma startswith_before_close c0 l' d b B rest :
  In d l' -> ~ In c0 l' -> ~ In d B ->
  startswith (c0 :: l') (b :: B ++ c0 :: rest) = false.
Proof.
  intros Hd Hc HB. cbn [startswith].
  destruct (c0 =? b)%N; [|reflexivity]. simpl.
  now apply startswith_blocked with (d := d).
Qed.

Lemma contains_before_close c0 l' d rest :
  In d l' -> ~ In c0 l' ->
  forall body,
    ~ In d body ->
    contains (c0 :: l') (c0 :: rest) = false ->
    contains (c0 :: l') (body ++ c0 :: rest) = false.
Proof.
  intros Hd Hc; induction body as [|b body IH]; intros Hb Hrest; [assumption|].
  change ((b :: body) ++ c0 :: rest) with (b :: body ++ c0 :: rest).
  rewrite contains_cons.
  - apply IH; [simpl in Hb; tauto|assumption].
  - apply startswith_before_close with (d := d); auto. simpl in Hb; tauto.
Qed.

Lemma forallb_any s : forallb any s = true.
Proof. induction s; simpl; auto. Qed.

(** An environment whose body lacks a character of the closing literal is
    matched from its opening to its first, and only, closing literal. *)
Lemma env_match prev opening closing c0 l' d body rest :
  closing = c0 :: l' ->
  In d l' -> ~ In c0 l' -> ~ In d body ->
  match_at prev (Lit opening ;; Group 1 (Rep any 0 false) ;; Lit closing)
    (opening ++ body ++ closing ++ rest)
  = Some (mkMatch (opening ++ body ++ closing) [(1, body)]).
Proof.
  intros E Hd Hc Hb. unfold match_at. cbn [rmatch].
  rewrite strip_prefix_app.
  apply rep_lazy_run.
  - apply forallb_any.
  - intros A b B EB. rewrite strip_prefix_none; [reflexivity|].
    rewrite E. cbn [app].
    apply startswith_before_close with (d := d); auto.
    intros H. apply Hb. rewrite EB. apply in_or_app. right. now right.
  - cbv beta. rewrite strip_prefix_app, capture_text.
    rewrite app_nil_r, !rev_app_distr, !rev_involutive, <- !app_assoc.
    reflexivity.
Qed.

Lemma sub_env o opening closing c0 l' d body repl out :
  closing = c0 :: l' ->
  In d l' -> ~ In c0 l' -> ~ In d body ->
  repl (mkMatch ((o :: opening) ++ body ++ closing) [(1, body)]) = Some out ->
  sub (Lit (o :: opening) ;; Group 1 (Rep any 0 false) ;; Lit closing) repl
    ((o :: opening) ++ body ++ closing)
  = Some out.
Proof.
  intros E Hd Hc Hb Hout. unfold sub.
  pose proof (@env_match None (o :: opening) closing c0 l' d body [] E Hd Hc Hb)
    as Hm.
  rewrite app_nil_r in Hm. cbn [app] in *.
  eapply sub_go_whole; [exact Hm|reflexivity|exact Hout].
Qed.

(** Where the characters of a narration come from. *)
Lemma In_split_go (c : char) sep :
  forall s skip cur piece,
    In piece (split_go sep skip cur s) -> In c piece -> In c cur \/ In c s.
Proof.
  induction s as [|a s IH]; intros skip cur piece Hp Hc.
  - simpl in Hp. destruct Hp as [<-|[]]. left. now apply in_rev.
  - cbn [split_go] in Hp. destruct skip as [|k].
    + destruct (startswith sep (a :: s)).
      * destruct Hp as [<-|Hp]; [left; now apply in_rev|].
        destruct (IH _ _ _ Hp Hc) as [[]|H]. right; now right.
      * destruct (IH _ _ _ Hp Hc) as [[<-|H]|H]; simpl; auto.
    + destruct (IH _ _ _ Hp Hc) as [H|H]; simpl; auto.
Qed.

Lemma In_join (c : char) sep :
  forall items,
    In c (join sep items) -> In c sep \/ exists x, In x items /\ In c x.
Proof.
  induction items as [|x items IH]; intros H; [destruct H|].
  destruct items as [|y items].
  - right. exists x. simpl in *; auto.
  - change (join sep (x :: y :: items)) with (x ++ sep ++ join sep (y :: items)) in H.
    apply in_app_or in H. destruct H as [H|H].
    { right. exists x. simpl; auto. }
    apply in_app_or in H. destruct H as [H|H]; [now left|].
    destruct (IH H) as [H'|(z & Hz & Hc)]; [now left|].
    right. exists z. split; [now right|assumption].
Qed.

Lemma In_uint_chars c d : In c (uint_chars d) -> (48 <= c <= 57)%N.
Proof.
  induction d; simpl; intros H; [tauto|..];
    (destruct H as [<-|H]; [lia|auto]).
Qed.

Lemma str_of_int_no_brace n : ~ In (chr "{") (str_of_int n).
Proof. intros H. apply In_uint_chars in H. lia. Qed.

Lemma In_cells c row cell : In cell (cells row) -> In c cell -> In c row.
Proof.
  unfold cells, split. intros H Hc. apply in_map_iff in H.
  destruct H as (p & <- & Hp). apply In_strip in Hc.
  destruct (@In_split_go c _ _ _ _ _ Hp Hc) as [[]|H]; assumption.
Qed.

Lemma In_matrix_rows c body row : In row (matrix_rows body) -> In c row -> In c body.
Proof.
  unfold matrix_rows, split. intros H Hc. apply in_map_iff in H.
  destruct H as (p & <- & Hp). apply filter_In in Hp. destruct Hp as [Hp _].
  apply In_strip in Hc.
  destruct (@In_split_go c _ _ _ _ _ Hp Hc) as [[]|H]. now apply In_strip.
Qed.

Lemma join_no_brace items :
  (forall x, In x items -> ~ In (chr "{") x) -> ~ In (chr "{") (join (u ", ") items).
Proof.
  intros Hitems H. apply In_join in H. destruct H as [H|(x & Hx & Hc)].
  - revert H. apply not_In_by_eval. reflexivity.
  - exact (Hitems x Hx Hc).
Qed.

Lemma cells_no_brace row : ~ In (chr "{") row -> ~ In (chr "{") (join (u ", ") (cells row)).
Proof.
  intros Hrow. apply join_no_brace. intros x Hx Hc.
  apply Hrow. now apply In_cells with (cell := x).
Qed.

Ltac no_brace :=
  repeat first
    [ apply lacks_by_parts
    | apply str_of_int_no_brace
    | apply cells_no_brace
    | assumption
    | apply not_In_by_eval; reflexivity ].

Lemma row_phrases_no_brace rows :
  (forall row, In row rows -> ~ In (chr "{") row) ->
  forall n, ~ In (chr "{") (concat (map row_phrase (enumerate n rows))).
Proof.
  induction rows as [|row rows IH]; intros Hrows n; [simpl; tauto|].
  cbn [enumerate map concat]. apply lacks_by_parts.
  - assert (Hrow : ~ In (chr "{") row) by (apply Hrows; now left).
    unfold row_phrase. cbn [fst snd]. no_brace.
  - apply IH. intros r Hr. apply Hrows. now right.
Qed.

Lemma matrix_phrase_no_brace style rows :
  ~ In (chr "{") style ->
  (forall row, In row rows -> ~ In (chr "{") row) ->
  ~ In (chr "{") (matrix_phrase style rows).
Proof.
  intros Hstyle Hrows. unfold matrix_phrase. no_brace.
  now apply row_phrases_no_brace.
Qed.

Lemma narration_no_brace style rows :
  ~ In (chr "{") style ->
  (forall row, In row rows -> ~ In (chr "{") row) ->
  ~ In (chr "{") (spec_narration style rows).
Proof.
  intros Hstyle Hrows. unfold spec_narration.
  destruct rows as [|r1 [|r2 rows]].
  - no_brace.
  - assert (H1 : ~ In (chr "{") r1) by (apply Hrows; now left).
    destruct (1 <? length (cells r1)).
    + no_brace.
    + now apply matrix_phrase_no_brace.
  - destruct (forallb _ _).
    + do 5 (apply lacks_by_parts; [no_brace|]). now apply join_no_brace.
    + now apply matrix_phrase_no_brace.
Qed.

Lemma matrix_narration_no_brace style body :
  ~ In (chr "{") style -> ~ In (chr "{") body ->
  ~ In (chr "{") (spec_narration style (matrix_rows body)).
Proof.
  intros Hstyle Hbody. apply narration_no_brace; [assumption|].
  intros row Hrow Hc. apply Hbody. now apply In_matrix_rows with (row := row).
Qed.

Lemma typed_matrix_needs_brace ty :
  forall prev t m,
    match_at prev (typed_matrix_pattern ty) t = Some m -> In (chr "{") (m_text m).
Proof. needs_char typed_matrix_pattern. Qed.

(** The passes of the matrix stage, one at a time. *)
Lemma sub_plain_env body :
  ~ In (chr "{") body ->
  sub matrix_pattern replace_matrix (u "\begin{matrix}" ++ body ++ u "\end{matrix}")
  = Some (spec_narration [] (matrix_rows body)).
Proof.
  intros Hb. unfold matrix_pattern.
  apply (@sub_env (chr "\") (u "begin{matrix}") (u "\end{matrix}") (chr "\")
           (u "end{matrix}") (chr "{") body replace_matrix _ eq_refl).
  - cbn [In]; tauto.
  - apply not_In_by_eval; reflexivity.
  - exact Hb.
  - apply replace_matrix_spec.
Qed.

Lemma sub_typed_env ty d body :
  ~ In (chr "\") ty -> ~ In (chr "{") body ->
  sub (typed_matrix_pattern ty) (replace_typed_matrix d)
    ((u "\begin{" ++ ty ++ u "}") ++ body ++ u "\end{" ++ ty ++ u "}")
  = Some (spec_narration (style_of d) (matrix_rows body)).
Proof.
  intros Hty Hb. unfold typed_matrix_pattern.
  apply (@sub_env (chr "\") (u "begin{" ++ ty ++ u "}") (u "\end{" ++ ty ++ u "}")
           (chr "\") (u "end{" ++ ty ++ u "}") (chr "{") body
           (replace_typed_matrix d) _ eq_refl).
  - apply in_or_app. left. cbn [In]; tauto.
  - apply lacks_by_parts; [apply not_In_by_eval; reflexivity|].
    apply lacks_by_parts; [assumption|apply not_In_by_eval; reflexivity].
  - exact Hb.
  - apply replace_typed_matrix_spec.
Qed.

Lemma sub_typed_absent ty d s :
  contains (u "\begin{" ++ ty ++ u "}") s = false ->
  sub (typed_matrix_pattern ty) (replace_typed_matrix d) s = Some s.
Proof. apply sub_absent. Qed.

Lemma sub_typed_no_brace ty d s :
  ~ In (chr "{") s ->
  sub (typed_matrix_pattern ty) (replace_typed_matrix d) s = Some s.
Proof.
  intros Hs.
  exact (@sub_needs _ _ (replace_typed_matrix d) _ (typed_matrix_needs_brace ty) Hs).
Qed.

(** Another environment's opening literal occurs nowhere in an environment
    whose body has no opening brace. *)
Ltac other_opening Hb :=
  cbn [app]; repeat (rewrite contains_cons by reflexivity);
  apply contains_before_close with (d := chr "{");
  [ cbn [In]; tauto | apply not_In_by_eval; reflexivity | exact Hb | reflexivity ].

Ltac matrix_passes Hb :=
  repeat (first
    [ rewrite sub_typed_env by (first [exact Hb | apply not_In_by_eval; reflexivity])
    | rewrite sub_typed_absent by other_opening Hb
    | rewrite sub_typed_no_brace
        by (apply matrix_narration_no_brace;
            [first [apply not_In_by_eval; reflexivity | simpl; tauto] | exact Hb]) ];
    cbv beta iota).

Lemma process_matrices_plain_env body :
  ~ In (chr "{") body ->
  _process_matrices (u "\begin{matrix}" ++ body ++ u "\end{matrix}")
  = Some (spec_narration [] (matrix_rows body)).
Proof.
  intros Hb. unfold _process_matrices.
  rewrite sub_plain_env by exact Hb.
  change matrix_types with
    [ (u "pmatrix", u "круглые скобки"); (u "bmatrix", u "квадратные скобки");
      (u "vmatrix", u "вертикальные черты");
      (u "Vmatrix", u "двойные вертикальные черты") ].
  cbn [fold_left fst snd]. cbv beta iota.
  matrix_passes Hb. reflexivity.
Qed.

Lemma process_matrices_typed_env matrix_type description body :
  In (matrix_type, description) matrix_types ->
  ~ In (chr "{") body ->
  _process_matrices
    ((u "\begin{" ++ matrix_type ++ u "}") ++ body ++ u "\end{" ++ matrix_type ++ u "}")
  = Some (spec_narration (style_of description) (matrix_rows body)).
Proof.
  intros Hin Hb.
  change matrix_types with
    [ (u "pmatrix", u "круглые скобки"); (u "bmatrix", u "квадратные скобки");
      (u "vmatrix", u "вертикальные черты");
      (u "Vmatrix", u "двойные вертикальные черты") ] in Hin.
  cbn [In] in Hin.
  destruct Hin as [E|[E|[E|[E|[]]]]]; injection E as <- <-;
    unfold _process_matrices, matrix_pattern;
    (rewrite sub_absent by other_opening Hb);
    change matrix_types with
      [ (u "pmatrix", u "круглые скобки"); (u "bmatrix", u "квадратные скобки");
        (u "vmatrix", u "вертикальные черты");
        (u "Vmatrix", u "двойные вертикальные черты") ];
    cbn [fold_left fst snd]; cbv beta iota;
    matrix_passes Hb; reflexivity.
Qed.

(** A plain matrix environment that is the whole text and whose body has no
    opening brace is replaced by the narration of its rows: the lazy body
    stops at the closing literal, and no typed pass touches the result. *)
Theorem plain_matrix_alone body :
  ~ In (chr "{") body ->
  _process_matrices (u "\begin{matrix}" ++ body ++ u "\end{matrix}")
  = Some (spec_narration [] (matrix_rows body)).
Proof. apply process_matrices_plain_env. Qed.

Lemma plain_matrix_alone_witness :
  _process_matrices (u "\begin{matrix}" ++ u "1 & 2 \\ 3" ++ u "\end{matrix}")
  = Some (spec_narration [] (matrix_rows (u "1 & 2 \\ 3"))).
Proof.
  apply (@plain_matrix_alone (u "1 & 2 \\ 3")).
  apply not_In_by_eval; reflexivity.
Defined.

(** A typed matrix environment of the table that is the whole text and
    whose body has no opening brace is replaced by the narration of its
    rows with the delimiter style of its type: the plain pass and the
    passes of the other types leave it alone, before and after. *)
Theorem typed_matrix_alone matrix_type description body :
  In (matrix_type, description) matrix_types ->
  ~ In (chr "{") body ->
  _process_matrices
    ((u "\begin{" ++ matrix_type ++ u "}") ++ body ++ u "\end{" ++ matrix_type ++ u "}")
  = Some (spec_narration (style_of description) (matrix_rows body)).
Proof. apply process_matrices_typed_env. Qed.

Lemma typed_matrix_alone_witness :
  _process_matrices
    ((u "\begin{" ++ u "vmatrix" ++ u "}") ++ u "a & b \\ c & d"
     ++ u "\end{" ++ u "vmatrix" ++ u "}")
  = Some (spec_narration (style_of (u "вертикальные черты"))
            (matrix_rows (u "a & b \\ c & d"))).
Proof.
  apply (@typed_matrix_alone (u "vmatrix") (u "вертикальные черты")
           (u "a & b \\ c & d")).
  - vm_compute. right; right; left; reflexivity.
  - apply not_In_by_eval; reflexivity.
Defined.

(* ================================================================== *)
(** ** Listing the voices *)

Lemma parse_loop_list py_int py_lower rest o :
  parse_loop py_int py_lower (u "--list" :: rest) o
  = parse_loop py_int py_lower rest (set_list_only o true).
Proof. destruct rest; reflexivity. Qed.

Lemma filter_truthy_list rest :
  filter truthy (u "--list" :: rest) = u "--list" :: filter truthy rest.
Proof. reflexivity. Qed.

Lemma main_listing py_int py_lower e prog args rest :
  Forall (fun a => is_flag_word a = false) args ->
  Forall (fun a => is_flag_word a = false) rest ->
  exists msg,
    main py_int py_lower e (prog :: args ++ u "--list" :: rest)
    = Some ([Print msg], 0%Z)
    /\ msg <> []
    /\ (is_spd_say_available e = false
        \/ capture e [u "spd-say"; u "-L"] = None ->
        msg = u "Список голосов пуст. Убедитесь, что установлен RHVoice и настроен speech-dispatcher.").
Proof.
  intros Hargs Hrest. unfold main. cbn [tl].
  rewrite filter_app, filter_truthy_list.
  rewrite parse_loop_words by now apply filter_truthy_words.
  rewrite parse_loop_list.
  rewrite <- (app_nil_r (filter truthy rest)).
  rewrite parse_loop_words by now apply filter_truthy_words.
  cbn [parse_loop set_text_parts set_list_only list_only].
  eexists. split; [reflexivity|]. split.
  - destruct (list_rhvoice_voices e); cbn; discriminate.
  - unfold list_rhvoice_voices. intros [H|H].
    + rewrite H. reflexivity.
    + rewrite H. destruct (negb (is_spd_say_available e)); reflexivity.
Qed.

(** With "--list" among arguments that are no flag words, [main] prints one
    non-empty line, runs no speech command and returns 0, whatever the text
    and the state of the machine; when spd-say is missing or the listing
    command fails, the line is the empty-list message, and the exit code is
    still 0. *)
Theorem listing_always_succeeds py_int py_lower e prog args rest :
  Forall (fun a => is_flag_word a = false) args ->
  Forall (fun a => is_flag_word a = false) rest ->
  exists msg,
    main py_int py_lower e (prog :: args ++ u "--list" :: rest)
    = Some ([Print msg], 0%Z)
    /\ msg <> []
    /\ (is_spd_say_available e = false
        \/ capture e [u "spd-say"; u "-L"] = None ->
        msg = u "Список голосов пуст. Убедитесь, что установлен RHVoice и настроен speech-dispatcher.").
Proof. apply main_listing. Qed.

Lemma listing_always_succeeds_witness :
  exists msg,
    main (fun _ => None) (fun s => s)
      (mkEnv (fun _ => None) (fun _ => None) (fun _ => None))
      (u "voice.py" :: [u "x^2"] ++ u "--list" :: [u "y"])
    = Some ([Print msg], 0%Z)
    /\ msg <> []
    /\ (is_spd_say_available (mkEnv (fun _ => None) (fun _ => None) (fun _ => None))
        = false
        \/ capture (mkEnv (fun _ => None) (fun _ => None) (fun _ => None))
             [u "spd-say"; u "-L"] = None ->
        msg = u "Список голосов пуст. Убедитесь, что установлен RHVoice и настроен speech-dispatcher.").
Proof.
  refine (@listing_always_succeeds (fun _ => None) (fun s => s)
            (mkEnv (fun _ => None) (fun _ => None) (fun _ => None))
            (u "voice.py") [u "x^2"] [u "y"] _ _); repeat constructor.
Defined.

(* ================================================================== *)
(** ** The operator, command and letter tables *)

(** Every trigger of the operator table, of the command table (styling
    commands and small Greek letters) and of the table of capital Greek
    letters, given alone, is announced by the phrase its table holds for
    it, trimmed: in these three tables no trigger is consumed by an earlier
    entry or by an earlier stage. *)
Theorem operator_and_letter_triggers_announced :
  Forall announces (MathSymbols.symbols ++ commands ++ greek_letters).
Proof.
  apply Forall_by_eval with (f := announcesb).
  - intros kv. apply opt_str_eqb_eq.
  - vm_compute; reflexivity.
Qed.

(* ================================================================== *)
(** ** The sub-rules for parentheses *)

(** A text with one occurrence of a character is cut at that character in
    one way only. *)
Lemma first_occurrence (c : char) :
  forall a' b', ~ In c a' -> ~ In c b' ->
  forall a b, a ++ c :: b = a' ++ c :: b' -> a = a' /\ b = b'.
Proof.
  induction a' as [|y a' IH]; intros b' Ha' Hb' a b E.
  - destruct a as [|x a]; cbn [app] in E.
    + injection E as <-. auto.
    + injection E as -> <-. exfalso. apply Hb'. apply in_or_app. right. now left.
  - destruct a as [|x a]; cbn [app] in E.
    + injection E as -> _. exfalso. apply Ha'. now left.
    + injection E as -> E.
      destruct (IH b' (fun H => Ha' (or_intror H)) Hb' a b E) as [-> ->]. auto.
Qed.

(** A pattern that matches at no position leaves the text as it is. *)
Lemma sub_go_unmatched r repl :
  forall s prev,
    (forall pre t prev', s = pre ++ t -> match_at prev' r t = None) ->
    sub_go r repl prev 0 s = Some s.
Proof.
  induction s as [|c s IH]; intros prev H; [reflexivity|].
  cbn [sub_go]. rewrite (H [] (c :: s) prev eq_refl).
  rewrite IH; [reflexivity|].
  intros pre t prev' E. apply (H (c :: pre) t prev'). now rewrite E.
Qed.

Lemma sub_unmatched r repl s :
  (forall pre t prev', s = pre ++ t -> match_at prev' r t = None) ->
  sub r repl s = Some s.
Proof. apply sub_go_unmatched. Qed.

(** Reads the shape of the matched text off a declarative match. *)
Ltac match_shape pat :=
  let prev := fresh "prev" in
  let t := fresh "t" in
  let m := fresh "m" in
  let Hm := fresh "Hm" in
  intros prev t m Hm; unfold pat in Hm;
  apply match_at_sound in Hm;
  let s' := fresh "s'" in
  let E := fresh "E" in
  destruct Hm as (s' & E & Hm);
  destruct m as [txt gs]; cbn [m_text m_groups] in *;
  split_match Hm; rewrite <- ?app_assoc.

Lemma func_single_shape :
  forall prev t m,
    match_at prev func_single_pattern t = Some m ->
    exists F V rest,
      t = F ++ u "(" ++ V ++ u ")" ++ rest
      /\ 1 <= length F /\ forallb alpha V = true.
Proof.
  match_shape func_single_pattern.
  do 3 eexists. split; [reflexivity|]. auto.
Qed.

Lemma func_complex_shape :
  forall prev t m,
    match_at prev func_complex_pattern t = Some m ->
    exists F X rest, t = F ++ u "(" ++ X ++ rest /\ 1 <= length F.
Proof.
  match_shape func_complex_pattern.
  do 3 eexists. split; [reflexivity|]. auto.
Qed.

Lemma single_var_shape :
  forall prev t m,
    match_at prev single_var_pattern t = Some m ->
    exists V rest, t = u "(" ++ V ++ u ")" ++ rest /\ forallb alpha V = true.
Proof.
  match_shape single_var_pattern.
  do 2 eexists. split; [reflexivity|]. auto.
Qed.

Lemma var_minus_needs_minus :
  forall prev t m,
    match_at prev var_minus_pattern t = Some m -> In (chr "-") (m_text m).
Proof. needs_char var_minus_pattern. Qed.

(** The matches of the four later sub-rules. *)
Lemma func_complex_match prev F C rest :
  F <> [] -> forallb alpha F = true -> 2 <= length C -> ~ In (chr ")") C ->
  match_at prev func_complex_pattern (F ++ u "(" ++ C ++ u ")" ++ rest)
  = Some (mkMatch (F ++ u "(" ++ C ++ u ")") [(2, C); (1, F)]).
Proof.
  intros HF HFa HC HCp. unfold match_at, func_complex_pattern. cbn [rmatch].
  apply rep_greedy_run.
  - reflexivity.
  - assumption.
  - destruct F; [congruence|simpl; lia].
  - rewrite app_nil_r.
    rewrite (@capture_at F [] (rev F)) by (now rewrite app_nil_r).
    rewrite strip_prefix_app.
    apply rep_greedy_run.
    + reflexivity.
    + now apply forallb_is_not.
    + assumption.
    + rewrite capture_text, strip_prefix_app.
      rewrite !rev_app_distr, !rev_involutive, <- !app_assoc. reflexivity.
Qed.

Lemma single_var_match V rest :
  V <> [] -> forallb alpha V = true ->
  match_at None single_var_pattern (u "(" ++ V ++ u ")" ++ rest)
  = Some (mkMatch (u "(" ++ V ++ u ")") [(1, V)]).
Proof.
  intros HV HVa. unfold match_at, single_var_pattern. cbn [rmatch behind].
  rewrite strip_prefix_app.
  apply rep_greedy_run.
  - reflexivity.
  - assumption.
  - destruct V; [congruence|simpl; lia].
  - rewrite capture_text, strip_prefix_app.
    rewrite app_nil_r, !rev_app_distr, !rev_involutive, <- !app_assoc. reflexivity.
Qed.

Lemma var_minus_match A B rest :
  A <> [] -> B <> [] -> forallb alpha A = true -> forallb alnum B = true ->
  match_at None var_minus_pattern (u "(" ++ A ++ u "-" ++ B ++ u ")" ++ rest)
  = Some (mkMatch (u "(" ++ A ++ u "-" ++ B ++ u ")") [(2, B); (1, A)]).
Proof.
  intros HA HB HAa HBa. unfold match_at, var_minus_pattern. cbn [rmatch behind].
  rewrite strip_prefix_app.
  apply rep_greedy_run.
  - reflexivity.
  - assumption.
  - destruct A; [congruence|simpl; lia].
  - rewrite capture_text, strip_prefix_app.
    apply rep_greedy_run.
    + reflexivity.
    + assumption.
    + destruct B; [congruence|simpl; lia].
    + rewrite capture_text, strip_prefix_app.
      rewrite app_nil_r, !rev_app_distr, !rev_involutive, <- !app_assoc. reflexivity.
Qed.

Lemma complex_paren_match prev C rest :
  2 <= length C -> ~ In (chr ")") C ->
  match_at prev complex_paren_pattern (u "(" ++ C ++ u ")" ++ rest)
  = Some (mkMatch (u "(" ++ C ++ u ")") [(1, C)]).
Proof.
  intros HC HCp. unfold match_at, complex_paren_pattern. cbn [rmatch].
  rewrite strip_prefix_app.
  apply rep_greedy_run.
  - reflexivity.
  - now apply forallb_is_not.
  - assumption.
  - rewrite capture_text, strip_prefix_app.
    rewrite app_nil_r, !rev_app_distr, !rev_involutive, <- !app_assoc. reflexivity.
Qed.

Lemma alnum_lacks (c : char) s : (c < 48)%N -> forallb alnum s = true -> ~ In c s.
Proof.
  intros Hc H Hin. rewrite forallb_forall in H. apply H in Hin.
  apply alnum_range in Hin. lia.
Qed.

Lemma alpha_lacks (c : char) s : (c < 48)%N -> forallb alpha s = true -> ~ In c s.
Proof.
  intros Hc H. apply alnum_lacks; [assumption|].
  rewrite forallb_forall in *. intros x Hx. apply alpha_alnum, H, Hx.
Qed.

(** The two sub-rules for a function need a letter before the opening
    parenthesis: they match nowhere in a text that opens with its only
    opening parenthesis. *)
Lemma paren_first_no_function r :
  (forall prev t m,
      match_at prev r t = Some m ->
      exists F rest, t = F ++ chr "(" :: rest /\ 1 <= length F) ->
  forall body,
    ~ In (chr "(") body ->
    forall pre t prev',
      chr "(" :: body = pre ++ t -> match_at prev' r t = None.
Proof.
  intros Hshape body Hb pre t prev' E.
  destruct (match_at prev' r t) as [m|] eqn:Hm; [exfalso|reflexivity].
  destruct (Hshape _ _ _ Hm) as (F & rest & -> & HF).
  rewrite app_assoc in E.
  destruct (@first_occurrence (chr "(") [] body (fun H => H) Hb (pre ++ F) rest
              (eq_sym E)) as [E1 _].
  apply app_eq_nil in E1. destruct E1 as [_ ->]. simpl in HF. lia.
Qed.

Lemma func_single_before_paren :
  forall prev t m,
    match_at prev func_single_pattern t = Some m ->
    exists F rest, t = F ++ chr "(" :: rest /\ 1 <= length F.
Proof.
  intros prev t m Hm.
  destruct (func_single_shape _ _ Hm) as (F & V & rest & -> & HF & _).
  exists F. eexists. split; [reflexivity|assumption].
Qed.

Lemma func_complex_before_paren :
  forall prev t m,
    match_at prev func_complex_pattern t = Some m ->
    exists F rest, t = F ++ chr "(" :: rest /\ 1 <= length F.
Proof.
  intros prev t m Hm.
  destruct (func_complex_shape _ _ Hm) as (F & X & rest & -> & HF).
  exists F. eexists. split; [reflexivity|assumption].
Qed.

(** The sub-rule for one variable matches only a text whose parentheses
    hold letters and nothing else. *)
Lemma single_var_unmatched body s :
  s = u "(" ++ body ++ u ")" ->
  ~ In (chr "(") body -> ~ In (chr ")") body -> forallb alpha body = false ->
  forall pre t prev',
    s = pre ++ t -> match_at prev' single_var_pattern t = None.
Proof.
  intros -> Hopen Hclose Hbody pre t prev' E.
  destruct (match_at prev' single_var_pattern t) as [m|] eqn:Hm;
    [exfalso|reflexivity].
  destruct (single_var_shape _ _ Hm) as (V & rest & -> & HV).
  cbn [app] in E.
  assert (Hb : ~ In (chr "(") (body ++ u ")")).
  { apply lacks_by_parts; [assumption|apply not_In_by_eval; reflexivity]. }
  destruct (@first_occurrence (chr "(") [] (body ++ u ")") (fun H => H) Hb
              pre (V ++ chr ")" :: rest) (eq_sym E)) as [_ E2].
  destruct (@first_occurrence (chr ")") body [] Hclose (fun H => H)
              V rest E2) as [-> _].
  congruence.
Qed.

(** The sub-rule for a function of one variable does not match a function
    applied to something else than letters. *)
Lemma func_single_unmatched F C :
  forallb alpha F = true ->
  ~ In (chr "(") C -> ~ In (chr ")") C -> forallb alpha C = false ->
  forall pre t prev',
    F ++ u "(" ++ C ++ u ")" = pre ++ t ->
    match_at prev' func_single_pattern t = None.
Proof.
  intros HFa Hopen Hclose HC pre t prev' E.
  destruct (match_at prev' func_single_pattern t) as [m|] eqn:Hm;
    [exfalso|reflexivity].
  destruct (func_single_shape _ _ Hm) as (F' & V & rest & -> & _ & HV).
  rewrite (app_assoc pre F') in E. cbn [app] in E.
  assert (Hb : ~ In (chr "(") (C ++ u ")")).
  { apply lacks_by_parts; [assumption|apply not_In_by_eval; reflexivity]. }
  destruct (@first_occurrence (chr "(") F (C ++ u ")") (alpha_lacks_paren _ HFa) Hb
              (pre ++ F') (V ++ chr ")" :: rest) (eq_sym E)) as [_ E2].
  destruct (@first_occurrence (chr ")") C [] Hclose (fun H => H)
              V rest E2) as [-> _].
  congruence.
Qed.

Lemma process_parentheses_variable V :
  V <> [] -> forallb alpha V = true ->
  _process_parentheses (u "(" ++ V ++ u ")") = Some (variable_phrase V).
Proof.
  intros HV HVa.
  assert (Hb : ~ In (chr "(") (V ++ u ")")).
  { apply lacks_by_parts; [now apply alpha_lacks_paren|].
    apply not_In_by_eval; reflexivity. }
  assert (Hp : ~ In (chr "(") (variable_phrase V)).
  { unfold variable_phrase.
    apply lacks_by_parts; [apply not_In_by_eval; reflexivity|].
    now apply alpha_lacks_paren. }
  unfold _process_parentheses. cbn [app].
  rewrite (@sub_unmatched func_single_pattern replace_func_single)
    by exact (@paren_first_no_function _ func_single_before_paren _ Hb).
  rewrite (@sub_unmatched func_complex_pattern replace_func_complex)
    by exact (@paren_first_no_function _ func_complex_before_paren _ Hb).
  assert (Hthird : sub single_var_pattern replace_single_var
                     (chr "(" :: V ++ u ")") = Some (variable_phrase V)).
  { unfold sub. pose proof (@single_var_match V [] HV HVa) as Hm.
    rewrite app_nil_r in Hm. cbn [app] in Hm.
    eapply sub_go_whole; [exact Hm|reflexivity|].
    unfold replace_single_var, group. cbn [m_groups lookup Nat.eqb].
    rewrite (strip_alpha _ HVa). reflexivity. }
  unfold str, char in *. rewrite Hthird.
  rewrite (@sub_needs _ _ replace_var_minus _ var_minus_needs_paren Hp).
  rewrite (@sub_needs _ _ replace_complex_paren _ complex_paren_needs_paren Hp).
  reflexivity.
Qed.

Lemma process_parentheses_difference A B :
  A <> [] -> B <> [] -> forallb alpha A = true -> forallb alnum B = true ->
  _process_parentheses (u "(" ++ A ++ u "-" ++ B ++ u ")")
  = Some (difference_phrase A B).
Proof.
  intros HA HB HAa HBa.
  assert (Hb : ~ In (chr "(") (A ++ u "-" ++ B ++ u ")")).
  { apply lacks_by_parts; [now apply alpha_lacks_paren|].
    apply lacks_by_parts; [apply not_In_by_eval; reflexivity|].
    apply lacks_by_parts; [apply alnum_lacks; [reflexivity|assumption]|].
    apply not_In_by_eval; reflexivity. }
  assert (Hp : ~ In (chr "(") (difference_phrase A B)).
  { unfold difference_phrase.
    apply lacks_by_parts; [apply not_In_by_eval; reflexivity|].
    apply lacks_by_parts; [now apply alpha_lacks_paren|].
    apply lacks_by_parts; [apply not_In_by_eval; reflexivity|].
    apply alnum_lacks; [reflexivity|assumption]. }
  assert (Hthird : forall pre t prev',
             chr "(" :: A ++ u "-" ++ B ++ u ")" = pre ++ t ->
             match_at prev' single_var_pattern t = None).
  { apply single_var_unmatched with (body := A ++ u "-" ++ B).
    - now rewrite <- !app_assoc.
    - apply lacks_by_parts; [now apply alpha_lacks_paren|].
      apply lacks_by_parts; [apply not_In_by_eval; reflexivity|].
      apply alnum_lacks; [reflexivity|assumption].
    - apply lacks_by_parts; [apply alpha_lacks; [reflexivity|assumption]|].
      apply lacks_by_parts; [apply not_In_by_eval; reflexivity|].
      apply alnum_lacks; [reflexivity|assumption].
    - rewrite forallb_app. apply andb_false_intro2. reflexivity. }
  unfold _process_parentheses. cbn [app] in *.
  rewrite (@sub_unmatched func_single_pattern replace_func_single)
    by exact (@paren_first_no_function _ func_single_before_paren _ Hb).
  rewrite (@sub_unmatched func_complex_pattern replace_func_complex)
    by exact (@paren_first_no_function _ func_complex_before_paren _ Hb).
  rewrite (@sub_unmatched single_var_pattern replace_single_var)
    by exact Hthird.
  assert (Hfourth : sub var_minus_pattern replace_var_minus
                      (chr "(" :: A ++ chr "-" :: B ++ u ")")
                    = Some (difference_phrase A B)).
  { unfold sub. pose proof (@var_minus_match A B [] HA HB HAa HBa) as Hm.
    rewrite app_nil_r in Hm. cbn [app] in Hm.
    eapply sub_go_whole; [exact Hm|reflexivity|].
    unfold replace_var_minus, group. cbn [m_groups lookup Nat.eqb].
    rewrite (strip_alpha _ HAa), (strip_alnum _ HBa). reflexivity. }
  unfold str, char in *. rewrite Hfourth.
  rewrite (@sub_needs _ _ replace_complex_paren _ complex_paren_needs_paren Hp).
  reflexivity.
Qed.

Lemma expression_phrase_no_paren C :
  ~ In (chr "(") C -> ~ In (chr "(") (expression_phrase C).
Proof.
  intros HC. unfold expression_phrase.
  apply lacks_by_parts; [apply not_In_by_eval; reflexivity|].
  apply lacks_by_parts; [now apply strip_lacks|].
  apply not_In_by_eval; reflexivity.
Qed.

Lemma process_parentheses_function_expression F C :
  F <> [] -> forallb alpha F = true ->
  2 <= length C -> forallb alpha C = false ->
  ~ In (chr "(") C -> ~ In (chr ")") C ->
  _process_parentheses (F ++ u "(" ++ C ++ u ")")
  = Some (function_expression_phrase F C).
Proof.
  intros HF HFa HC HCa Hopen Hclose.
  assert (Hp : ~ In (chr "(") (function_expression_phrase F C)).
  { unfold function_expression_phrase.
    apply lacks_by_parts; [now apply alpha_lacks_paren|].
    apply lacks_by_parts; [apply not_In_by_eval; reflexivity|].
    now apply expression_phrase_no_paren. }
  unfold _process_parentheses.
  rewrite (@sub_unmatched func_single_pattern replace_func_single)
    by exact (@func_single_unmatched F C HFa Hopen Hclose HCa).
  assert (Hsecond : sub func_complex_pattern replace_func_complex
                      (F ++ u "(" ++ C ++ u ")")
                    = Some (function_expression_phrase F C)).
  { unfold sub. pose proof (@func_complex_match None F C [] HF HFa HC Hclose) as Hm.
    rewrite app_nil_r in Hm.
    destruct F as [|c F]; [congruence|]. cbn [app] in Hm |- *.
    eapply sub_go_whole; [exact Hm|reflexivity|].
    unfold replace_func_complex, group. cbn [m_groups lookup Nat.eqb].
    rewrite (strip_alpha _ HFa).
    unfold function_expression_phrase, expression_phrase.
    cbn [app]. reflexivity. }
  unfold str, char in *. rewrite Hsecond.
  rewrite (@sub_needs _ _ replace_single_var _ single_var_needs_paren Hp).
  rewrite (@sub_needs _ _ replace_var_minus _ var_minus_needs_paren Hp).
  rewrite (@sub_needs _ _ replace_complex_paren _ complex_paren_needs_paren Hp).
  reflexivity.
Qed.

Lemma process_parentheses_expression C :
  2 <= length C -> forallb alpha C = false ->
  ~ In (chr "(") C -> ~ In (chr ")") C -> ~ In (chr "-") C ->
  _process_parentheses (u "(" ++ C ++ u ")") = Some (expression_phrase C).
Proof.
  intros HC HCa Hopen Hclose Hminus.
  assert (Hb : ~ In (chr "(") (C ++ u ")")).
  { apply lacks_by_parts; [assumption|apply not_In_by_eval; reflexivity]. }
  assert (Hm4 : ~ In (chr "-") (chr "(" :: C ++ u ")")).
  { apply (@lacks_by_parts (chr "-") (u "(") (C ++ u ")"));
      [apply not_In_by_eval; reflexivity|].
    apply lacks_by_parts; [assumption|apply not_In_by_eval; reflexivity]. }
  pose proof (@single_var_unmatched C _ eq_refl Hopen Hclose HCa) as Hthird.
  unfold _process_parentheses. cbn [app] in *.
  rewrite (@sub_unmatched func_single_pattern replace_func_single)
    by exact (@paren_first_no_function _ func_single_before_paren _ Hb).
  rewrite (@sub_unmatched func_complex_pattern replace_func_complex)
    by exact (@paren_first_no_function _ func_complex_before_paren _ Hb).
  rewrite (@sub_unmatched single_var_pattern replace_single_var)
    by exact Hthird.
  rewrite (@sub_needs (chr "-") var_minus_pattern replace_var_minus)
    by first [exact var_minus_needs_minus | exact Hm4].
  unfold sub. pose proof (@complex_paren_match None C [] HC Hclose) as Hm.
  rewrite app_nil_r in Hm. cbn [app] in Hm.
  erewrite sub_go_whole; [reflexivity|exact Hm|reflexivity|reflexivity].
Qed.

(** A name made of letters applied to an expression of two or more
    characters that are not all letters and hold no parenthesis, "g(x-1)",
    is read "g, parenthesis opens, x-1, parenthesis closes" by the second
    sub-rule; the first sub-rule does not match it, and the three after it
    leave the reading alone. *)
Theorem function_of_expression F C :
  F <> [] -> forallb alpha F = true ->
  2 <= length C -> forallb alpha C = false ->
  ~ In (chr "(") C -> ~ In (chr ")") C ->
  _process_parentheses (F ++ u "(" ++ C ++ u ")")
  = Some (function_expression_phrase F C).
Proof. apply process_parentheses_function_expression. Qed.

Lemma function_of_expression_witness :
  _process_parentheses (u "g(x-1)")
  = Some (u "g скобка открывается x-1 скобка закрывается").
Proof.
  refine (@function_of_expression (u "g") (u "x-1") _ _ _ _ _ _);
    first [ discriminate | reflexivity | simpl; lia
          | apply not_In_by_eval; reflexivity ].
Defined.

(** Letters in parentheses with nothing before them, "(t)", are read
    "of t" by the third sub-rule; the two sub-rules for functions find no
    name before the parenthesis. *)
Theorem variable_in_parentheses V :
  V <> [] -> forallb alpha V = true ->
  _process_parentheses (u "(" ++ V ++ u ")") = Some (variable_phrase V).
Proof. apply process_parentheses_variable. Qed.

Lemma variable_in_parentheses_witness :
  _process_parentheses (u "(t)") = Some (u "от t").
Proof.
  refine (@variable_in_parentheses (u "t") _ _); [discriminate|reflexivity].
Defined.

(** Letters, a hyphen, and letters or digits in parentheses with nothing
    before them, "(t-1)", are read "of t minus 1" by the fourth sub-rule;
    none of the three sub-rules before it matches. *)
Theorem difference_in_parentheses A B :
  A <> [] -> B <> [] -> forallb alpha A = true -> forallb alnum B = true ->
  _process_parentheses (u "(" ++ A ++ u "-" ++ B ++ u ")")
  = Some (difference_phrase A B).
Proof. apply process_parentheses_difference. Qed.

Lemma difference_in_parentheses_witness :
  _process_parentheses (u "(t-1)") = Some (u "от t минус 1").
Proof.
  refine (@difference_in_parentheses (u "t") (u "1") _ _ _ _);
    first [discriminate | reflexivity].
Defined.

(** Two or more characters in parentheses with nothing before them, not
    all letters and without parenthesis or hyphen, "(a+b)", are read
    "parenthesis opens, a+b, parenthesis closes" by the last sub-rule; none
    of the four sub-rules before it matches. *)
Theorem expression_in_parentheses C :
  2 <= length C -> forallb alpha C = false ->
  ~ In (chr "(") C -> ~ In (chr ")") C -> ~ In (chr "-") C ->
  _process_parentheses (u "(" ++ C ++ u ")") = Some (expression_phrase C).
Proof. apply process_parentheses_expression. Qed.

Lemma expression_in_parentheses_witness :
  _process_parentheses (u "(a+b)")
  = Some (u "скобка открывается a+b скобка закрывается").
Proof.
  refine (@expression_in_parentheses (u "a+b") _ _ _ _ _);
    first [ reflexivity | simpl; lia | apply not_In_by_eval; reflexivity ].
Defined.

(* ================================================================== *)
(** ** Occurrences of a literal in a text put together from parts *)

Lemma startswith_app_true l :
  forall s t, startswith l s = true -> startswith l (s ++ t) = true.
Proof.
  induction l as [|x l IH]; intros s t H; [reflexivity|].
  destruct s as [|y s]; [discriminate|]. cbn [app startswith] in *.
  apply andb_prop in H. destruct H as [-> H]. now rewrite IH.
Qed.


(** A literal that does not occur in a text occurs in no part of it, and
    no literal it begins occurs there. *)
Lemma contains_tail l a : forall s, contains l (a ++ s) = false -> contains l s = false.
Proof.
  induction a as [|x a IH]; intros s H; [assumption|].
  cbn [app contains] in H. apply orb_false_elim in H. destruct H as [_ H]. auto.
Qed.

Lemma contains_front l : forall s t, contains l (s ++ t) = false -> contains l s = false.
Proof.
  induction s as [|x s IH]; intros t H.
  - destruct (contains l []) eqn:E; [|reflexivity].
    cbn [contains] in E. rewrite orb_false_r in E.
    apply startswith_app_true with (t := t) in E. cbn [app] in E, H.
    destruct t; cbn [contains] in H; rewrite E in H; discriminate.
  - cbn [app contains] in H |- *. apply orb_false_elim in H. destruct H as [H1 H2].
    rewrite (IH _ H2), orb_false_r.
    destruct (startswith l (x :: s)) eqn:E; [|reflexivity].
    apply startswith_app_true with (t := t) in E. cbn [app] in E. congruence.
Qed.

Lemma contains_part l a s b : contains l (a ++ s ++ b) = false -> contains l s = false.
Proof. intros H. apply contains_tail in H. now apply contains_front in H. Qed.













Section NarrationKeeps.

(** A literal that opens with a backslash and holds no comma. *)
Variable l' : str.
Hypothesis no_comma : ~ In (chr ",") l'.

Let l : str := chr "\" :: l'.









End NarrationKeeps.











(* ================================================================== *)
(** ** The matrix stage on a whole environment *)





(* ================================================================== *)
(** ** Exponents, one caret after the other *)

(** The exponent pattern does not look behind: the scan does not depend on
    the character before its starting point. *)
Lemma superscript_scan_start prev prev' :
  forall s skip,
    sub_go superscript_pattern replace_superscript prev skip s
    = sub_go superscript_pattern replace_superscript prev' skip s.
Proof.
  intros [|c s] skip; [reflexivity|]. cbn [sub_go].
  destruct skip; reflexivity.
Qed.

Lemma superscript_braces_then pre P rest :
  ~ In (chr "^") pre -> P <> [] -> ~ In (chr "}") P ->
  _process_superscripts (pre ++ u "^{" ++ P ++ u "}" ++ rest)
  = match _process_superscripts rest with
    | Some t => Some (pre ++ power_phrase P ++ t)
    | None => None
    end.
Proof.
  intros Hpre HP HPb. unfold _process_superscripts, sub.
  rewrite sub_superscript_prefix by assumption.
  pose proof (@superscript_match_braces (behind None (rev pre)) P rest HP HPb) as Hm.
  assert (E : u "^{" ++ P ++ u "}" ++ rest
              = chr "^" :: (u "{" ++ P ++ u "}") ++ rest)
    by (cbn [app]; rewrite <- ?app_assoc; reflexivity).
  rewrite E in Hm |- *.
  erewrite sub_go_at_match; [|exact Hm|reflexivity|].
  - rewrite (superscript_scan_start _ None).
    destruct (sub_go superscript_pattern replace_superscript None 0 rest);
      [|reflexivity].
    rewrite <- ?app_assoc. reflexivity.
  - destruct P; [congruence|reflexivity].
Qed.

Lemma superscript_token_then pre P rest :
  ~ In (chr "^") pre -> P <> [] -> forallb alnum P = true ->
  match rest with [] => True | c :: _ => alnum c = false end ->
  _process_superscripts (pre ++ u "^" ++ P ++ rest)
  = match _process_superscripts rest with
    | Some t => Some (pre ++ power_phrase P ++ t)
    | None => None
    end.
Proof.
  intros Hpre HP HPa Hhead. unfold _process_superscripts, sub.
  rewrite sub_superscript_prefix by assumption.
  pose proof (@superscript_match_token (behind None (rev pre)) P rest HP HPa Hhead)
    as Hm.
  cbn [app] in Hm |- *.
  erewrite sub_go_at_match; [|exact Hm|reflexivity|].
  - rewrite (superscript_scan_start _ None).
    destruct (sub_go superscript_pattern replace_superscript None 0 rest);
      [|reflexivity].
    rewrite <- ?app_assoc. reflexivity.
  - unfold replace_superscript, group. cbn [m_groups lookup Nat.eqb].
    reflexivity.
Qed.

(** C9, as amended.  The first caret of a text, followed by a brace group
    whose content is not empty and holds no closing brace, or by an
    alphanumeric token, is rewritten to the power phrase with the group
    content trimmed, or the token; the text before the caret is kept and
    the text after the group or the token is rewritten in the same way.
    On "x^2 + y^2 = z^2" the power-of-2 phrase appears three times, once
    for each caret, "plus" and "equals" once each, and no caret, plus sign
    or equals sign is left. *)
Theorem superscripts_narrated :
  (forall pre P rest,
      ~ In (chr "^") pre -> P <> [] -> ~ In (chr "}") P ->
      exists t,
        _process_superscripts rest = Some t
        /\ _process_superscripts (pre ++ u "^{" ++ P ++ u "}" ++ rest)
           = Some (pre ++ u " в степени " ++ strip P ++ t))
  /\ (forall pre P rest,
         ~ In (chr "^") pre -> P <> [] -> forallb alnum P = true ->
         match rest with [] => True | c :: _ => alnum c = false end ->
         exists t,
           _process_superscripts rest = Some t
           /\ _process_superscripts (pre ++ u "^" ++ P ++ rest)
              = Some (pre ++ u " в степени " ++ P ++ t))
  /\ (let out := u "x в степени 2 плюс y в степени 2 равно z в степени 2" in
      latex_to_text (u "x^2 + y^2 = z^2") = Some out
      /\ count (u " в степени 2") out = 3
      /\ count (u "плюс") out = 1
      /\ count (u "равно") out = 1
      /\ contains (u "^") out = false
      /\ contains (u "+") out = false
      /\ contains (u "=") out = false).
Proof.
  split; [|split].
  - intros pre P rest Hpre HP HPb.
    destruct (process_superscripts_total rest) as [t Ht]. exists t.
    split; [assumption|].
    rewrite superscript_braces_then by assumption. rewrite Ht.
    unfold power_phrase. now rewrite <- app_assoc.
  - intros pre P rest Hpre HP HPa Hhead.
    destruct (process_superscripts_total rest) as [t Ht]. exists t.
    split; [assumption|].
    rewrite superscript_token_then by assumption. rewrite Ht.
    unfold power_phrase. now rewrite (strip_alnum P HPa), <- app_assoc.
  - cbv zeta. repeat split; vm_compute; reflexivity.
Qed.

Lemma superscripts_narrated_witness :
  (exists t,
      _process_superscripts (u "c^2 d^x") = Some t
      /\ _process_superscripts (u "a" ++ u "^{" ++ u " b " ++ u "}" ++ u "c^2 d^x")
         = Some (u "a" ++ u " в степени " ++ strip (u " b ") ++ t))
  /\ (exists t,
         _process_superscripts (u " d^x") = Some t
         /\ _process_superscripts (u "c" ++ u "^" ++ u "2" ++ u " d^x")
            = Some (u "c" ++ u " в степени " ++ u "2" ++ t)).
Proof.
  destruct superscripts_narrated as (Hbraces & Htoken & _).
  split.
  - refine (Hbraces (u "a") (u " b ") (u "c^2 d^x") _ _ _).
    + apply not_In_by_eval; reflexivity.
    + discriminate.
    + apply not_In_by_eval; reflexivity.
  - refine (Htoken (u "c") (u "2") (u " d^x") _ _ _ _).
    + apply not_In_by_eval; reflexivity.
    + discriminate.
    + reflexivity.
    + reflexivity.
Defined.

(** Where the claim as first stated fails: the power-of-2 phrase does not
    appear exactly twice in the narration of "x^2 + y^2 = z^2"; the caret
    before an empty group stays; in "e^{x^{2}}" the group of the first
    caret ends at the first closing brace and the second caret, though
    followed by a group, stays; and blanks around the content of a group
    are not part of the phrase. *)
Lemma superscripts_counterexample :
  ~ (exists out,
        latex_to_text (u "x^2 + y^2 = z^2") = Some out
        /\ count (u " в степени 2") out = 2)
  /\ _process_superscripts (u "x^{}") = Some (u "x^{}")
  /\ _process_superscripts (u "e^{x^{2}}") = Some (u "e в степени x^{2}")
  /\ contains (u "^") (u "e в степени x^{2}") = true
  /\ latex_to_text (u "e^{x^{2}}") = Some (u "e в степени x^2")
  /\ _process_superscripts (u "x^{ 2 }") = Some (u "x в степени 2")
  /\ _process_superscripts (u "x^{ 2 }")
     <> Some (u "x" ++ u " в степени " ++ u " 2 ").
Proof.
  split.
  { intros (out & Hout & Hcount).
    vm_compute in Hout. injection Hout as <-.
    vm_compute in Hcount. discriminate. }
  repeat split; try (vm_compute; reflexivity).
  vm_compute. discriminate.
Qed.
